(** * dummy-file-manager: the n-ary tree storage and its manager

    A shallow embedding of [src/main.cpp]: the path utility
    ([splitFilePath], [throwIfNameInvalid], [getFileExtension]), the
    [Folder]/[File] node model kept in an explicit heap of folders (the
    code links folders by raw pointers, and the [".."] entry of a folder
    aliases its parent), and the public operations of [FileManager]
    written in a small state-and-exception monad. *)

From Stdlib Require Import ZArith String Ascii List Lia.
From stdpp Require Import gmap strings list fin_maps.

(** ** Exceptions *)

(** The two exception classes the code throws.  [std::invalid_argument]
    derives from [std::logic_error], not from [std::runtime_error]: a
    handler for one never catches the other. *)
Inductive exception : Type :=
  | runtime_error (what : string)
  | invalid_argument (what : string).

(** Result of a static helper that either returns or throws. *)
Inductive throwing (A : Type) : Type :=
  | Ret (a : A)
  | Throw (e : exception).
Arguments Ret {A} a.
Arguments Throw {A} e.

Definition throwing_map {A B} (f : A → B) (r : throwing A) : throwing B :=
  match r with
  | Ret a => Ret (f a)
  | Throw e => Throw e
  end.

(** ** Path utility *)

Definition sep : ascii := "/"%char.
Definition dot : ascii := "."%char.

(** The double quote that the messages of [splitFilePath] and
    [throwIfNameInvalid] put around the separator. *)
Definition dq : string := String (ascii_of_nat 34) "".
Definition quoted_sep : string := dq +:+ "/" +:+ dq.

(** The two exceptions of [splitFilePath]. *)
Definition adjacent_error : exception :=
  runtime_error ("Adjacent " +:+ quoted_sep +:+ " not allowed in filePath").

Definition preceding_error : exception :=
  runtime_error ("Preceeding " +:+ quoted_sep +:+ " not allowed in filePath").

(** [s.push_back(c)] *)
Definition push_back (s : string) (c : ascii) : string := s +:+ String c "".

(** The two nested [while] loops of [splitFilePath].  [rest] is the part
    of [filePath] from [index] on and [curSplit] the segment being
    collected by the inner loop.  When the inner loop stops on a
    separator, the character after it is inspected (the adjacency test),
    the segment is pushed and [index] moves past the separator; the outer
    loop goes on only while characters remain. *)
Fixpoint splitLoop (rest curSplit : string) : throwing (list string) :=
  match rest with
  | EmptyString => Ret [curSplit]
  | String c rest' =>
      if Ascii.eqb c sep then
        match rest' with
        | EmptyString => Ret [curSplit]
        | String c' _ =>
            if Ascii.eqb c' sep
            then Throw adjacent_error
            else throwing_map (cons curSplit) (splitLoop rest' "")
        end
      else splitLoop rest' (push_back curSplit c)
  end.

Definition splitFilePath (filePath : string) : throwing (list string) :=
  match filePath with
  | EmptyString => Ret []
  | String c _ =>
      if Ascii.eqb c sep
      then Throw preceding_error
      else splitLoop filePath ""
  end.

(** [name.find('/') != std::string::npos] *)
Fixpoint contains_sep (name : string) : bool :=
  match name with
  | EmptyString => false
  | String c name' => Ascii.eqb c sep || contains_sep name'
  end.

Definition invalid_name_error : exception :=
  invalid_argument ("File or folder names can't contain " +:+ quoted_sep +:+ " in them").

Definition throwIfNameInvalid (name : string) : throwing unit :=
  if contains_sep name then Throw invalid_name_error else Ret tt.

(** Bounds of the C++ [int]: the indices of [getFileExtension] and the
    two counters of a folder. *)
Definition INT_MAX : Z := 2147483647.
Definition INT_MIN : Z := -2147483648.

(** Conversion of a [std::size_t] to [int], as in
    [int fileNameSize = fileName.size()]: the value modulo [2^32], which
    is the rule of C++20 and what compilers did before it. *)
Definition to_int (n : Z) : Z := ((n - INT_MIN) mod 2 ^ 32 + INT_MIN)%Z.

(** The inner loop of [getFileExtension]: [j] runs from [i + 1] up to
    [fileNameSize - 1], and every round pushes [fileName[i]] (the
    character at the index of the dot, not at [j]).  [count] is the number
    of rounds left. *)
Fixpoint extensionLoop (fileName : string) (i count : nat) (extension : string) : string :=
  match count with
  | O => extension
  | S count' =>
      match String.get i fileName with
      | Some c => extensionLoop fileName i count' (push_back extension c)
      | None => extension
      end
  end.

(** The outer loop: [i] runs from [fileNameSize - 1] down to [0];
    [k] is [i + 1], so that the loop ends when [k] is [0].  [fileNameSize]
    is the size after its conversion to [int], when that is not
    negative. *)
Fixpoint extensionScan (fileName : string) (fileNameSize k : nat) : string :=
  match k with
  | O => ""
  | S i =>
      match String.get i fileName with
      | Some c =>
          if Ascii.eqb c dot
          then extensionLoop fileName i (fileNameSize - (i + 1)) ""
          else extensionScan fileName fileNameSize i
      | None => extensionScan fileName fileNameSize i
      end
  end.

(** [getFileExtension].  The size of the name is converted to [int]
    first.  When the converted size is [INT_MIN], [fileNameSize - 1]
    overflows: the call has undefined behaviour, which is the result
    [None].  When it is negative otherwise, [i >= 0] fails at once and the
    result is empty.  When it is not negative, the loops run over the
    first [fileNameSize] characters of the name. *)
Definition getFileExtension (fileName : string) : option string :=
  let fileNameSize := to_int (Z.of_nat (String.length fileName)) in
  if (fileNameSize =? INT_MIN)%Z then None
  else Some (extensionScan fileName (Z.to_nat fileNameSize) (Z.to_nat fileNameSize)).

(** ** Node model *)

(** Addresses of [Folder] objects.  [new] never hands out an address
    twice (see [alloc]), so a pointer to a deleted folder stays dangling. *)
Definition addr : Type := nat.

Module File.
Record Metadata : Type := mkMetadata {
  fileSize_ : nat;
  fullPath_ : string;
  fileExtension_ : string
}.
Record t : Type := mk {
  metadata_ : Metadata;
  content_ : string
}.
End File.

(** In a [Folder], [folders_] holds raw pointers; [files_] owns each
    [File] through a pointer that is stored nowhere else, so the files are
    kept by value. *)
Module Folder.
Record Metadata : Type := mkMetadata {
  foldersCount_ : Z;
  filesCount_ : Z;
  fullPath_ : string
}.
Record t : Type := mk {
  metadata_ : Metadata;
  parentFolder_ : option addr;
  folders_ : gmap string addr;
  files_ : gmap string File.t
}.
End Folder.

(** The reserved name under which a folder keeps the pointer to its parent. *)
Definition up : string := "..".

(** [File::File(fullPath, fileExtension, content)] *)
Definition File_new (fullPath fileExtension content : string) : File.t :=
  File.mk (File.mkMetadata (String.length content) fullPath fileExtension) content.

(** [File::updateContent] *)
Definition updateContent (newFileContent : string) (f : File.t) : File.t :=
  File.mk
    (File.mkMetadata (String.length newFileContent)
       (File.fullPath_ (File.metadata_ f))
       (File.fileExtension_ (File.metadata_ f)))
    newFileContent.

(** [Folder::Folder(fullPath, parentFolder)]: both counts start at [0];
    a folder with a parent gets the [".."] entry. *)
Definition Folder_new (fullPath : string) (parentFolder : option addr) : Folder.t :=
  Folder.mk (Folder.mkMetadata 0 0 fullPath) parentFolder
    (match parentFolder with
     | Some p => {[ up := p ]}
     | None => ∅
     end)
    ∅.

(** ** Program state *)

(** The folder heap with its allocation counter, the [rootFolder] of the
    [FileStorage], and the two cursor fields of the [FileManager]. *)
Record state : Type := mkState {
  heap : gmap addr Folder.t;
  next_addr : addr;
  rootFolder : addr;
  currentDirPointer_ : addr;
  currentDirPath_ : string
}.

(** ** A state-and-exception monad *)

Inductive res (A : Type) : Type :=
  | Val (a : A) (s : state)          (* normal completion *)
  | Exc (e : exception) (s : state)  (* an exception is in flight *)
  | Undef                            (* undefined behaviour *)
  | NoFuel.                          (* the bound of [destroy] was too small *)
Arguments Val {A} a s.
Arguments Exc {A} e s.
Arguments Undef {A}.
Arguments NoFuel {A}.

Definition M (A : Type) : Type := state → res A.

Definition ret {A} (a : A) : M A := fun s => Val a s.

Definition bind {A B} (m : M A) (k : A → M B) : M B := fun s =>
  match m s with
  | Val a s' => k a s'
  | Exc e s' => Exc e s'
  | Undef => Undef
  | NoFuel => NoFuel
  end.

Notation "x <- m ;; k" := (bind m (fun x => k))
  (at level 20, m at level 99, k at level 200, only parsing).
Notation "m ;; k" := (bind m (fun _ => k))
  (at level 100, k at level 200, only parsing, right associativity).

Definition throw {A} (e : exception) : M A := fun s => Exc e s.

Definition undefined {A} : M A := fun _ => Undef.

Definition call {A} (r : throwing A) : M A :=
  match r with
  | Ret a => ret a
  | Throw e => throw e
  end.

Definition get : M state := fun s => Val s s.

(** Reading through a folder pointer; a dangling pointer is undefined
    behaviour. *)
Definition deref (a : addr) : M Folder.t := fun s =>
  match heap s !! a with
  | Some f => Val f s
  | None => Undef
  end.

(** Writing through a folder pointer. *)
Definition store (a : addr) (f : Folder.t) : M unit := fun s =>
  match heap s !! a with
  | Some _ =>
      Val tt (mkState (<[a := f]> (heap s)) (next_addr s) (rootFolder s)
                (currentDirPointer_ s) (currentDirPath_ s))
  | None => Undef
  end.

(** [new Folder(...)]: the object is placed at the next unused address. *)
Definition alloc (f : Folder.t) : M addr := fun s =>
  Val (next_addr s)
    (mkState (<[next_addr s := f]> (heap s)) (S (next_addr s)) (rootFolder s)
       (currentDirPointer_ s) (currentDirPath_ s)).

Definition set_heap (h : gmap addr Folder.t) : M unit := fun s =>
  Val tt (mkState h (next_addr s) (rootFolder s)
            (currentDirPointer_ s) (currentDirPath_ s)).

(** The two assignments that end a successful [changeDirectory]. *)
Definition set_current (p : addr) (path : string) : M unit := fun s =>
  Val tt (mkState (heap s) (next_addr s) (rootFolder s) p path).

(** ** Folder methods *)

(** [m.count(key)] of [std::unordered_map]: [1] or [0]. *)
Definition count {V} (m : gmap string V) (key : string) : nat :=
  match m !! key with
  | Some _ => 1
  | None => 0
  end.

Definition with_folders (f : Folder.t) (n : Z) (fs : gmap string addr) : Folder.t :=
  Folder.mk
    (Folder.mkMetadata n (Folder.filesCount_ (Folder.metadata_ f))
       (Folder.fullPath_ (Folder.metadata_ f)))
    (Folder.parentFolder_ f) fs (Folder.files_ f).

Definition with_files (f : Folder.t) (n : Z) (fs : gmap string File.t) : Folder.t :=
  Folder.mk
    (Folder.mkMetadata (Folder.foldersCount_ (Folder.metadata_ f)) n
       (Folder.fullPath_ (Folder.metadata_ f)))
    (Folder.parentFolder_ f) (Folder.folders_ f) fs.

(** [Folder::addFolder]; incrementing an [int] that holds [INT_MAX] is
    undefined behaviour. *)
Definition addFolder (this : addr) (newFolderName : string) (newFolderPointer : addr)
  : M unit :=
  f <- deref this ;;
  let n := Folder.foldersCount_ (Folder.metadata_ f) in
  if (n =? INT_MAX)%Z then undefined
  else store this
         (with_folders f (n + 1) (<[newFolderName := newFolderPointer]> (Folder.folders_ f))).

(** [Folder::addFile] *)
Definition addFile (this : addr) (newFileName : string) (newFile : File.t) : M unit :=
  f <- deref this ;;
  let n := Folder.filesCount_ (Folder.metadata_ f) in
  if (n =? INT_MAX)%Z then undefined
  else store this (with_files f (n + 1) (<[newFileName := newFile]> (Folder.files_ f))).

(** Outcome of [delete p] on a folder pointer. *)
Inductive freeing : Type :=
  | Freed (h : gmap addr Folder.t)
  | DoubleFree
  | Exhausted.

(** One round of the first loop of [Folder::~Folder]: the entry named
    [".."] is skipped, every other entry is deleted. *)
Definition destroy_entry (del : addr → gmap addr Folder.t → freeing)
    (acc : freeing) (entry : string * addr) : freeing :=
  match acc with
  | Freed h => if String.eqb entry.1 up then Freed h else del entry.2 h
  | _ => acc
  end.

(** [delete p]: run [~Folder] on the object at [p], then release it.
    Deleting through a dangling pointer is undefined behaviour.  The
    second loop of the destructor deletes the files, which are part of the
    folder record here and go with it.  The recursion of the destructor
    is bounded by [fuel]; [destroy_total] and [reachable_never_exhausted]
    below show that the bound used by [release] always suffices. *)
Fixpoint destroy (fuel : nat) (p : addr) (h : gmap addr Folder.t) : freeing :=
  match h !! p with
  | None => DoubleFree
  | Some f =>
      match fuel with
      | O => Exhausted
      | S fuel' =>
          match foldl (destroy_entry (destroy fuel')) (Freed h)
                  (map_to_list (Folder.folders_ f)) with
          | Freed h' =>
              match h' !! p with
              | Some _ => Freed (delete p h')
              | None => DoubleFree
              end
          | r => r
          end
      end
  end.

Definition release (p : addr) : M unit := fun s =>
  match destroy (next_addr s) p (heap s) with
  | Freed h => set_heap h s
  | DoubleFree => Undef
  | Exhausted => NoFuel
  end.

(** [Folder::removeFolder].  For an absent name, [folders_[folderName]]
    inserts a null pointer whose [delete] does nothing and [erase] takes
    the entry out again. *)
Definition removeFolder (this : addr) (folderName : string) : M unit :=
  f <- deref this ;;
  match Folder.folders_ f !! folderName with
  | Some child => release child
  | None => ret tt
  end ;;
  f' <- deref this ;;
  let n := Folder.foldersCount_ (Folder.metadata_ f') in
  if (n =? INT_MIN)%Z then undefined
  else store this (with_folders f' (n - 1) (delete folderName (Folder.folders_ f'))).

(** [Folder::removeFile] *)
Definition removeFile (this : addr) (fileName : string) : M unit :=
  f <- deref this ;;
  let n := Folder.filesCount_ (Folder.metadata_ f) in
  if (n =? INT_MIN)%Z then undefined
  else store this (with_files f (n - 1) (delete fileName (Folder.files_ f))).

(** ** FileStorage and FileManager *)

(** [FileStorage()] followed by [FileManager(fileStorage)]: the root
    folder ["/"] without a parent, and a manager standing on it. *)
Definition initial : state :=
  mkState {[ 0 := Folder_new "/" None ]} 1 0 0 "/".

(** What a caller of a public operation observes. *)
Inductive outcome (A : Type) : Type :=
  | Done (a : A) (s : state)           (* returned, nothing written to [std::cerr] *)
  | Reported (diag : string) (s : state)
                                        (* exception caught inside, [diag] written to [std::cerr] *)
  | Escaped (e : exception) (s : state) (* the exception left the operation *)
  | Terminated                          (* [std::terminate]: exception out of a [noexcept] function *)
  | Undefined
  | OutOfFuel.
Arguments Done {A} a s.
Arguments Reported {A} diag s.
Arguments Escaped {A} e s.
Arguments Terminated {A}.
Arguments Undefined {A}.
Arguments OutOfFuel {A}.

(** [try { body } catch (std::invalid_argument &e) { std::cerr << prefix << e.what(); }] *)
Definition try_catch_invalid_argument {A} (prefix : string) (body : M A) (s : state)
  : outcome A :=
  match body s with
  | Val a s' => Done a s'
  | Exc (invalid_argument what) s' => Reported (prefix +:+ what) s'
  | Exc (runtime_error what) s' => Escaped (runtime_error what) s'
  | Undef => Undefined
  | NoFuel => OutOfFuel
  end.

(** [try { body } catch (const std::runtime_error &e) { std::cerr << prefix << e.what(); }] *)
Definition try_catch_runtime_error {A} (prefix : string) (body : M A) (s : state)
  : outcome A :=
  match body s with
  | Val a s' => Done a s'
  | Exc (runtime_error what) s' => Reported (prefix +:+ what) s'
  | Exc (invalid_argument what) s' => Escaped (invalid_argument what) s'
  | Undef => Undefined
  | NoFuel => OutOfFuel
  end.

(** A [noexcept] function: an exception that would leave it ends the process. *)
Definition noexcept {A} (o : outcome A) : outcome A :=
  match o with
  | Escaped _ _ => Terminated
  | _ => o
  end.

(** The [for] loop of [changeDirectory] over the split destination. *)
Fixpoint walk (names : list string) (tempDirPointer : addr) : M addr :=
  match names with
  | [] => ret tempDirPointer
  | nextFolderName :: names' =>
      f <- deref tempDirPointer ;;
      match Folder.folders_ f !! nextFolderName with
      | None => throw (runtime_error "Destination folder can't be found")
      | Some next => walk names' next
      end
  end.

Definition changeDirectory (destinationFolder : string) (relative : bool) (s : state)
  : outcome unit :=
  if String.eqb (currentDirPath_ s) destinationFolder then Done tt s
  else
    let tempDirPointer := if relative then currentDirPointer_ s else rootFolder s in
    try_catch_runtime_error "Couldn't change directory: "
      (destinationFolderSpilt <- call (splitFilePath destinationFolder) ;;
       p <- walk destinationFolderSpilt tempDirPointer ;;
       set_current p destinationFolder) s.

Definition printWorkingDirectory (s : state) : string := currentDirPath_ s.

Definition createFolder (folderName : string) : state → outcome unit :=
  try_catch_invalid_argument "Error while creating folder: "
    (call (throwIfNameInvalid folderName) ;;
     s <- get ;;
     cur <- deref (currentDirPointer_ s) ;;
     if negb (count (Folder.folders_ cur) folderName =? 0)%nat
     then throw (runtime_error "Folder already exists")
     else
       let newFolderPath := currentDirPath_ s +:+ "/" +:+ folderName in
       newFolderPointer <- alloc (Folder_new newFolderPath (Some (currentDirPointer_ s))) ;;
       addFolder (currentDirPointer_ s) folderName newFolderPointer).

Definition createFile (fileName fileContent : string) : state → outcome unit :=
  try_catch_invalid_argument "Error while creating file: "
    (call (throwIfNameInvalid fileName) ;;
     s <- get ;;
     cur <- deref (currentDirPointer_ s) ;;
     if negb (count (Folder.files_ cur) fileName =? 0)%nat
     then throw (runtime_error "File already exists")
     else
       let newFilePath := currentDirPath_ s +:+ "/" +:+ fileName in
       match getFileExtension fileName with
       | None => undefined
       | Some extension =>
           addFile (currentDirPointer_ s) fileName
             (File_new newFilePath extension fileContent)
       end).

Definition updateFile (fileName fileContent : string) : state → outcome unit :=
  try_catch_invalid_argument "Error while updating file: "
    (call (throwIfNameInvalid fileName) ;;
     s <- get ;;
     cur <- deref (currentDirPointer_ s) ;;
     match Folder.files_ cur !! fileName with
     | None => throw (runtime_error "File doesn't exists")
     | Some file =>
         store (currentDirPointer_ s)
           (with_files cur (Folder.filesCount_ (Folder.metadata_ cur))
              (<[fileName := updateContent fileContent file]> (Folder.files_ cur)))
     end).

(** [printCurrentFolderContents]: the folder whose fields are printed. *)
Definition printCurrentFolderContents (s : state) : outcome Folder.t :=
  match heap s !! currentDirPointer_ s with
  | Some f => Done f s
  | None => Undefined
  end.

(** [printFileContents]: the file whose fields are printed.  The function
    is declared [noexcept]. *)
Definition printFileContents (fileName : string) (s : state) : outcome File.t :=
  noexcept
    (try_catch_invalid_argument "Error while printing file: "
       (call (throwIfNameInvalid fileName) ;;
        s <- get ;;
        cur <- deref (currentDirPointer_ s) ;;
        match Folder.files_ cur !! fileName with
        | None => throw (runtime_error "File doesn't exists")
        | Some file => ret file
        end) s).

Definition deleteFolder (folderName : string) : state → outcome unit :=
  try_catch_invalid_argument "Error while deleting folder: "
    (call (throwIfNameInvalid folderName) ;;
     s <- get ;;
     cur <- deref (currentDirPointer_ s) ;;
     if (count (Folder.folders_ cur) folderName =? 0)%nat
     then throw (runtime_error "Folder doesn't exists")
     else removeFolder (currentDirPointer_ s) folderName).

Definition deleteFile (fileName : string) : state → outcome unit :=
  try_catch_invalid_argument "Error while deleting file: "
    (call (throwIfNameInvalid fileName) ;;
     s <- get ;;
     cur <- deref (currentDirPointer_ s) ;;
     if (count (Folder.files_ cur) fileName =? 0)%nat
     then throw (runtime_error "File doesn't exists")
     else removeFile (currentDirPointer_ s) fileName).

(** The state in which an operation leaves the program, when it returns
    to the caller at all. *)
Definition after {A} (o : outcome A) (s : state) : state :=
  match o with
  | Done _ s' | Reported _ s' | Escaped _ s' => s'
  | _ => s
  end.

(** The six mutating operations of the public interface, as one type. *)
Inductive mutation : Type :=
  | ChangeDirectory (destinationFolder : string) (relative : bool)
  | CreateFolder (folderName : string)
  | CreateFile (fileName fileContent : string)
  | UpdateFile (fileName fileContent : string)
  | DeleteFolder (folderName : string)
  | DeleteFile (fileName : string).

Definition perform (m : mutation) : state → outcome unit :=
  match m with
  | ChangeDirectory d r => changeDirectory d r
  | CreateFolder n => createFolder n
  | CreateFile n c => createFile n c
  | UpdateFile n c => updateFile n c
  | DeleteFolder n => deleteFolder n
  | DeleteFile n => deleteFile n
  end.

(** A call fails when an exception was raised in it, whether the
    operation caught and reported it or let it out; [failure] gives the
    state the failed call leaves behind. *)
Definition failure {A} (o : outcome A) : option state :=
  match o with
  | Reported _ s' | Escaped _ s' => Some s'
  | _ => None
  end.

(** The state after a call that came back to its caller, normally or
    with an exception the caller may catch. *)
Definition returns {A} (o : outcome A) : option state :=
  match o with
  | Done _ s' | Reported _ s' | Escaped _ s' => Some s'
  | _ => None
  end.

(** States a caller can bring about from a fresh storage and manager. *)
Inductive reachable : state → Prop :=
  | reachable_initial : reachable initial
  | reachable_step m s s' :
      reachable s → returns (perform m s) = Some s' → reachable s'.

(** ** Vocabulary of the specification *)

(** A path begins with the separator. *)
Definition begins_with_sep (p : string) : bool :=
  match p with
  | String c _ => Ascii.eqb c sep
  | EmptyString => false
  end.

(** A path contains two adjacent separators. *)
Fixpoint has_adjacent_seps (p : string) : bool :=
  match p with
  | String c r =>
      (Ascii.eqb c sep && begins_with_sep r) || has_adjacent_seps r
  | EmptyString => false
  end.

(** A path ends with the separator. *)
Fixpoint ends_with_sep (p : string) : bool :=
  match p with
  | EmptyString => false
  | String c EmptyString => Ascii.eqb c sep
  | String _ r => ends_with_sep r
  end.

(** Cutting a string at every separator: [n] separators delimit [n + 1]
    pieces, in order. *)
Fixpoint pieces (p : string) : list string :=
  match p with
  | EmptyString => [""]
  | String c r =>
      if Ascii.eqb c sep then "" :: pieces r
      else match pieces r with
           | h :: t => String c h :: t
           | [] => [String c ""]
           end
  end.

(** A trailing separator counts as none. *)
Fixpoint strip_trailing_sep (p : string) : string :=
  match p with
  | EmptyString => ""
  | String c EmptyString => if Ascii.eqb c sep then "" else p
  | String c r => String c (strip_trailing_sep r)
  end.

(** The segments of a path in the words of the specification: the
    separator-delimited names in order, none for the empty path. *)
Definition segments (p : string) : list string :=
  match p with
  | EmptyString => []
  | _ => pieces (strip_trailing_sep p)
  end.

(** Putting segments back together with separators between them. *)
Fixpoint join (names : list string) : string :=
  match names with
  | [] => ""
  | [n] => n
  | n :: names' => n +:+ "/" +:+ join names'
  end.

(** The suffix of a name strictly after its last dot, empty when the name
    has no dot. *)
Fixpoint suffix_after_last_dot (name : string) : option string :=
  match name with
  | EmptyString => None
  | String c r =>
      match suffix_after_last_dot r with
      | Some suf => Some suf
      | None => if Ascii.eqb c dot then Some r else None
      end
  end.

Definition extension_of (name : string) : string :=
  match suffix_after_last_dot name with
  | Some suf => suf
  | None => ""
  end.

(** A string of [n] dots. *)
Fixpoint dots (n : nat) : string :=
  match n with
  | O => ""
  | S n' => String dot (dots n')
  end.



(** The [".."] entry of every folder of the heap is its parent pointer:
    a folder with a parent holds it under [".."], a folder without a
    parent has no [".."] entry. *)
Definition up_entries_are_parents (h : gmap addr Folder.t) : Prop :=
  ∀ (p : addr) f, h !! p = Some f → Folder.folders_ f !! up = Folder.parentFolder_ f.

(** The child folder of the current folder that is bound to [name]. *)
Definition child_folder (name : string) (s : state) : option Folder.t :=
  cur ← heap s !! currentDirPointer_ s;
  p ← Folder.folders_ cur !! name;
  heap s !! p.

(** The file of the current folder that is bound to [name]. *)
Definition child_file (name : string) (s : state) : option File.t :=
  cur ← heap s !! currentDirPointer_ s;
  Folder.files_ cur !! name.

(** The counters of a folder against its two maps.  The [".."] entry
    that the constructor puts into a folder with a parent is not counted. *)
Definition counts_ok (f : Folder.t) : Prop :=
  Folder.filesCount_ (Folder.metadata_ f) = Z.of_nat (size (Folder.files_ f)) ∧
  Folder.foldersCount_ (Folder.metadata_ f) =
    (Z.of_nat (size (Folder.folders_ f))
     - match Folder.parentFolder_ f with Some _ => 1 | None => 0 end)%Z.

(** Allocation discipline of the heap: live folders lie below the
    allocation counter, and every entry other than [".."] points to a
    folder allocated after the one that holds it. *)
Definition bounded (h : gmap addr Folder.t) (n : addr) : Prop :=
  ∀ p f, h !! p = Some f → p < n.

Definition ordered (h : gmap addr Folder.t) : Prop :=
  ∀ p f name c,
    h !! p = Some f → Folder.folders_ f !! name = Some c → name ≠ up → p < c.

Definition well_formed (s : state) : Prop :=
  bounded (heap s) (next_addr s) ∧ ordered (heap s).

Definition all_counts_ok (s : state) : Prop :=
  ∀ p f, heap s !! p = Some f → counts_ok f.

Definition invariant (s : state) : Prop := well_formed s ∧ all_counts_ok s.

(** States of the driver's run that the examples below start from. *)
Definition with_aaa : state := after (createFolder "aaa" initial) initial.

Definition in_aaa : state := after (changeDirectory "aaa" true with_aaa) with_aaa.


Definition back_at_root : state := after (changeDirectory ".." true in_aaa) in_aaa.

(** ** Further vocabulary *)

(** The ways in which a successful operation rewrites the current folder
    [cur] of the state [s]. *)
Inductive rewrites (s : state) (cur : Folder.t) : Folder.t → Prop :=
  | rewrites_add_folder name :
      contains_sep name = false →
      Folder.folders_ cur !! name = None →
      rewrites s cur
        (with_folders cur (Folder.foldersCount_ (Folder.metadata_ cur) + 1)
           (<[name := next_addr s]> (Folder.folders_ cur)))
  | rewrites_remove_folder name child :
      Folder.folders_ cur !! name = Some child →
      rewrites s cur
        (with_folders cur (Folder.foldersCount_ (Folder.metadata_ cur) - 1)
           (delete name (Folder.folders_ cur)))
  | rewrites_add_file name content extension :
      contains_sep name = false →
      Folder.files_ cur !! name = None →
      getFileExtension name = Some extension →
      rewrites s cur
        (with_files cur (Folder.filesCount_ (Folder.metadata_ cur) + 1)
           (<[name := File_new (currentDirPath_ s +:+ "/" +:+ name)
                        extension content]> (Folder.files_ cur)))
  | rewrites_update_file name content old :
      Folder.files_ cur !! name = Some old →
      rewrites s cur
        (with_files cur (Folder.filesCount_ (Folder.metadata_ cur))
           (<[name := updateContent content old]> (Folder.files_ cur)))
  | rewrites_remove_file name old :
      Folder.files_ cur !! name = Some old →
      rewrites s cur
        (with_files cur (Folder.filesCount_ (Folder.metadata_ cur) - 1)
           (delete name (Folder.files_ cur))).

(** A file as [createFile] and [updateFile] leave it under [name]. *)
Definition file_ok (name : string) (file : File.t) : Prop :=
  File.fileSize_ (File.metadata_ file) = String.length (File.content_ file) ∧
  getFileExtension name = Some (File.fileExtension_ (File.metadata_ file)) ∧
  ∃ path, File.fullPath_ (File.metadata_ file) = path +:+ "/" +:+ name.

Definition files_ok (f : Folder.t) : Prop :=
  ∀ name file, Folder.files_ f !! name = Some file → file_ok name file.

(** Every name bound in a folder passes [throwIfNameInvalid]. *)
Definition names_ok (f : Folder.t) : Prop :=
  (∀ name c, Folder.folders_ f !! name = Some c → contains_sep name = false) ∧
  (∀ name file, Folder.files_ f !! name = Some file → contains_sep name = false).

(** [FileStorage::~FileStorage]: [delete rootFolder]. *)
Definition FileStorage_delete (s : state) : outcome unit :=
  match release (rootFolder s) s with
  | Val _ s' => Done tt s'
  | Exc e s' => Escaped e s'
  | Undef => Undefined
  | NoFuel => OutOfFuel
  end.

(** One statement of [main] after another.  [main] catches nothing: an
    exception that leaves a call ends the process.  The result carries
    the diagnostics that the calls wrote to [std::cerr]. *)
Definition andThen {A} (o : outcome A) (k : state → outcome (list string))
  : outcome (list string) :=
  match o with
  | Done _ s => k s
  | Reported diag s =>
      match k s with
      | Done diags s' => Done (diag :: diags) s'
      | other => other
      end
  | Escaped _ _ | Terminated => Terminated
  | Undefined => Undefined
  | OutOfFuel => OutOfFuel
  end.

(** [main]: the calls of the driver in order, then [delete fileManager]
    (the class has no destructor) and [delete fileStorage]. *)
Definition main : outcome (list string) :=
  andThen (printCurrentFolderContents initial) (fun s =>
  andThen (createFolder "aaa" s) (fun s =>
  andThen (printCurrentFolderContents s) (fun s =>
  andThen (changeDirectory "aaa" true s) (fun s =>
  andThen (printCurrentFolderContents s) (fun s =>
  andThen (createFolder "bbb" s) (fun s =>
  andThen (changeDirectory "aaa/bbb" false s) (fun s =>
  andThen (changeDirectory "../.." true s) (fun s =>
  andThen (printCurrentFolderContents s) (fun s =>
  andThen (createFile "yoyo" "huhu" s) (fun s =>
  andThen (printCurrentFolderContents s) (fun s =>
  andThen (printFileContents "yoyo" s) (fun s =>
  andThen (updateFile "yoyo" "huuuuuuuuuuuuuuuuuuuuu" s) (fun s =>
  andThen (printFileContents "yoyo" s) (fun s =>
  andThen (printCurrentFolderContents s) (fun s =>
  andThen (deleteFile "yoyo" s) (fun s =>
  andThen (printCurrentFolderContents s) (fun s =>
  andThen (createFolder "ccc" s) (fun s =>
  andThen (deleteFolder "ccc" s) (fun s =>
  andThen (FileStorage_delete s) (fun s => Done [] s)))))))))))))))))))).

(** When a folder is freed, so is every folder it holds under a name
    other than [".."]. *)
Definition closed_down (h h' : gmap addr Folder.t) : Prop :=
  ∀ q g, h !! q = Some g → h' !! q = None →
         ∀ name c, Folder.folders_ g !! name = Some c → name ≠ up → h' !! c = None.

(** Every folder freed lies at an address from [p] on, and is the folder
    at [p] or has a parent that is freed too. *)
Definition freed_from (h h' : gmap addr Folder.t) (p : addr) : Prop :=
  ∀ (q : addr) g, h !! q = Some g → h' !! q = None →
         p ≤ q ∧ (q = p ∨ ∃ pq, Folder.parentFolder_ g = Some pq ∧ h' !! pq = None).

(** The folders at addresses from [b] on hold, under names other than
    [".."], folders of the heap that name them as their parent. *)
Definition children_live_above (h : gmap addr Folder.t) (b : addr) : Prop :=
  ∀ (p : addr) f name (c : addr),
    b ≤ p → h !! p = Some f → name ≠ up → Folder.folders_ f !! name = Some c →
    ∃ g, h !! c = Some g ∧ Folder.parentFolder_ g = Some p.

(** No folder holds the same folder under two names other than [".."]. *)
Definition children_distinct (h : gmap addr Folder.t) : Prop :=
  ∀ p f n1 n2 c,
    h !! p = Some f → n1 ≠ up → n2 ≠ up →
    Folder.folders_ f !! n1 = Some c → Folder.folders_ f !! n2 = Some c → n1 = n2.

(** The heap is a tree under [root]: the [".."] entry of a folder is its
    parent pointer; children are in the heap and point back; a folder with
    a parent is held by it; only the root has none. *)
Definition tree (h : gmap addr Folder.t) (root : addr) : Prop :=
  (∀ p f, h !! p = Some f → Folder.folders_ f !! up = Folder.parentFolder_ f) ∧
  children_live_above h 0 ∧
  children_distinct h ∧
  (∀ q g pq, h !! q = Some g → Folder.parentFolder_ g = Some pq →
             ∃ f name, h !! pq = Some f ∧ name ≠ up ∧
                       Folder.folders_ f !! name = Some q) ∧
  (∀ q g, h !! q = Some g → Folder.parentFolder_ g = None → q = root).

(** Calls that keep away from the reserved name: neither [createFolder]
    nor [deleteFolder] is given [".."]. *)
Definition avoids_up (m : mutation) : Prop :=
  match m with
  | CreateFolder name | DeleteFolder name => name ≠ up
  | _ => True
  end.

(** The states that the manager brings about by such calls on a fresh
    storage.  As in [main], the storage has this one manager. *)
Inductive tidy : state → Prop :=
  | tidy_initial : tidy initial
  | tidy_step m s s' :
      tidy s → avoids_up m → returns (perform m s) = Some s' → tidy s'.

Definition tidy_invariant (s : state) : Prop :=
  invariant s ∧ tree (heap s) (rootFolder s) ∧
  rootFolder s = 0 ∧
  is_Some (heap s !! rootFolder s) ∧ is_Some (heap s !! currentDirPointer_ s).

(** The two counters of the current folder have not reached [INT_MAX]. *)
Definition room (s : state) : Prop :=
  ∀ cur, heap s !! currentDirPointer_ s = Some cur →
         (Folder.foldersCount_ (Folder.metadata_ cur) < INT_MAX)%Z ∧
         (Folder.filesCount_ (Folder.metadata_ cur) < INT_MAX)%Z.

(** The file name given to [createFile] has a size that fits an [int]:
    fewer than [2^31] characters. *)
Definition short_name (m : mutation) : Prop :=
  match m with
  | CreateFile name _ => (Z.of_nat (String.length name) ≤ INT_MAX)%Z
  | _ => True
  end.

(** What the tree is made of: the folder map and the parent pointer. *)
Definition links (f : Folder.t) : gmap string addr * option addr :=
  (Folder.folders_ f, Folder.parentFolder_ f).

Definition same_links (h h1 : gmap addr Folder.t) : Prop :=
  ∀ p : addr, links <$> h1 !! p = links <$> h !! p.

(** ** Tactics *)

Ltac unfold_monad :=
  unfold call, bind, ret, throw, undefined, get, deref, store, alloc,
    set_heap, set_current, release in *.

(** Case analysis along the control flow of an operation. *)
Ltac run :=
  unfold_monad; repeat (case_match; simplify_eq/=; unfold_monad); try done.

(** The state at which an exception was raised is the state of the call. *)
Ltac same_state := try (intros [= _ <-]; done).

(** * Properties *)

(** ** Strings *)

#[local] Arguments String.append : simpl never.

Lemma append_nil_l (s : string) : "" +:+ s = s.
Proof. reflexivity. Qed.

Lemma append_cons (c : ascii) (s1 s2 : string) :
  String c s1 +:+ s2 = String c (s1 +:+ s2).
Proof. reflexivity. Qed.

Lemma append_nil_r (s : string) : s +:+ "" = s.
Proof. induction s as [|c s IH]; [done | by rewrite append_cons, IH]. Qed.

Lemma append_assoc (s1 s2 s3 : string) : (s1 +:+ s2) +:+ s3 = s1 +:+ s2 +:+ s3.
Proof.
  induction s1 as [|c s1 IH]; [done | by rewrite !append_cons, IH].
Qed.

Lemma push_back_not_empty (s : string) (c : ascii) : push_back s c ≠ "".
Proof. by destruct s. Qed.

Lemma ascii_eqb_true (c d : ascii) : Ascii.eqb c d = true → c = d.
Proof. apply Ascii.eqb_eq. Qed.

(** ** The path utility *)

Lemma pieces_not_nil (p : string) : pieces p ≠ [].
Proof.
  induction p as [|c r IH]; simpl; [done|].
  destruct (Ascii.eqb c sep); [done|]. by destruct (pieces r).
Qed.

Lemma strip_trailing_sep_cons (c : ascii) (r : string) :
  Ascii.eqb c sep = false →
  strip_trailing_sep (String c r) = String c (strip_trailing_sep r).
Proof. intros Hc. destruct r; simpl; [by rewrite Hc | done]. Qed.

Lemma has_adjacent_seps_cons (c : ascii) (r : string) :
  has_adjacent_seps (String c r) =
  (Ascii.eqb c sep && begins_with_sep r) || has_adjacent_seps r.
Proof. reflexivity. Qed.

(** The three ways a round of the loops goes on a non-empty suffix. *)
Lemma splitLoop_cons_cons (c c' : ascii) (r curSplit : string) :
  splitLoop (String c (String c' r)) curSplit =
  if Ascii.eqb c sep
  then if Ascii.eqb c' sep then Throw adjacent_error
       else throwing_map (cons curSplit) (splitLoop (String c' r) "")
  else splitLoop (String c' r) (push_back curSplit c).
Proof. reflexivity. Qed.

Lemma splitLoop_cons_other (c : ascii) (r curSplit : string) :
  Ascii.eqb c sep = false →
  splitLoop (String c r) curSplit = splitLoop r (push_back curSplit c).
Proof. intros Hc. cbn [splitLoop]. by rewrite Hc. Qed.

Lemma splitLoop_last_sep (c : ascii) (curSplit : string) :
  Ascii.eqb c sep = true → splitLoop (String c "") curSplit = Ret [curSplit].
Proof. intros Hc. cbn [splitLoop]. by rewrite Hc. Qed.

(** The loops on a suffix without adjacent separators: the segment in
    progress is completed by the first piece of the suffix, the other
    pieces follow. *)
Lemma splitLoop_pieces (rest : string) :
  has_adjacent_seps rest = false →
  ∀ curSplit,
    splitLoop rest curSplit =
    Ret (match pieces (strip_trailing_sep rest) with
         | h :: t => (curSplit +:+ h) :: t
         | [] => [curSplit]
         end).
Proof.
  induction rest as [|c r IH]; intros Hadj cur.
  - cbn [splitLoop strip_trailing_sep pieces]. by rewrite append_nil_r.
  - rewrite has_adjacent_seps_cons in Hadj.
    apply orb_false_iff in Hadj as [Hhere Hr].
    destruct (Ascii.eqb c sep) eqn:Hc.
    + destruct r as [|c' r'].
      * rewrite splitLoop_last_sep by done.
        cbn [strip_trailing_sep]. rewrite Hc.
        cbn [pieces]. by rewrite append_nil_r.
      * cbn [begins_with_sep andb] in Hhere.
        rewrite splitLoop_cons_cons, Hc, Hhere, (IH Hr "").
        change (strip_trailing_sep (String c (String c' r')))
          with (String c (strip_trailing_sep (String c' r'))).
        generalize (pieces_not_nil (strip_trailing_sep (String c' r'))).
        generalize (strip_trailing_sep (String c' r')) as q. intros q Hq.
        cbn [pieces]. rewrite Hc.
        destruct (pieces q) as [|h t]; [done|].
        cbn [throwing_map]. by rewrite append_nil_r, append_nil_l.
    + rewrite strip_trailing_sep_cons, splitLoop_cons_other, (IH Hr) by done.
      generalize (pieces_not_nil (strip_trailing_sep r)).
      generalize (strip_trailing_sep r) as q. intros q Hq.
      cbn [pieces]. rewrite Hc.
      destruct (pieces q) as [|h t]; [done|].
      unfold push_back. by rewrite append_assoc, append_cons, append_nil_l.
Qed.

Lemma splitLoop_adjacent (rest : string) :
  has_adjacent_seps rest = true →
  ∀ curSplit, splitLoop rest curSplit = Throw adjacent_error.
Proof.
  induction rest as [|c r IH]; intros Hadj cur; [done|].
  rewrite has_adjacent_seps_cons in Hadj.
  destruct (Ascii.eqb c sep) eqn:Hc.
  - destruct r as [|c' r']; [done|].
    rewrite splitLoop_cons_cons, Hc.
    cbn [begins_with_sep andb] in Hadj.
    destruct (Ascii.eqb c' sep) eqn:Hc'; [done|].
    by rewrite (IH Hadj "").
  - rewrite splitLoop_cons_other by done. by apply IH.
Qed.

(** [splitFilePath] in closed form. *)
Lemma splitFilePath_cases (p : string) :
  splitFilePath p =
  if begins_with_sep p then Throw preceding_error
  else if has_adjacent_seps p then Throw adjacent_error
  else Ret (segments p).
Proof.
  destruct p as [|c r]; [done|].
  unfold splitFilePath, begins_with_sep.
  destruct (Ascii.eqb c sep) eqn:Hc; [done|].
  destruct (has_adjacent_seps (String c r)) eqn:Hadj.
  - by apply splitLoop_adjacent.
  - rewrite splitLoop_pieces by done. unfold segments.
    destruct (pieces (strip_trailing_sep (String c r))) eqn:Hp; [|done].
    by apply pieces_not_nil in Hp.
Qed.

(** C9: [splitFilePath] throws its [std::runtime_error] (the malformed
    path error) exactly when the path begins with the separator or has two
    adjacent separators; otherwise it returns the separator-delimited
    segments of the path in order; the empty path gives no segment. *)
Theorem splitFilePath_malformed_or_segments (p : string) :
  (begins_with_sep p || has_adjacent_seps p = true ↔
     ∃ what, splitFilePath p = Throw (runtime_error what)) ∧
  (begins_with_sep p || has_adjacent_seps p = false →
     splitFilePath p = Ret (segments p)) ∧
  splitFilePath "" = Ret [].
Proof.
  rewrite splitFilePath_cases. split; [split|split; [|done]].
  - intros Hbad. destruct (begins_with_sep p); [by eexists|].
    destruct (has_adjacent_seps p); [by eexists | done].
  - intros [what Hthrow].
    by destruct (begins_with_sep p), (has_adjacent_seps p).
  - intros Hok. apply orb_false_iff in Hok as [-> ->]. done.
Qed.

Lemma splitFilePath_malformed_or_segments_witness :
  splitFilePath "aaa/bbb" = Ret ["aaa"; "bbb"] ∧
  ∃ what, splitFilePath "aaa//bbb" = Throw (runtime_error what).
Proof.
  split.
  - exact (proj1 (proj2 (splitFilePath_malformed_or_segments "aaa/bbb")) eq_refl).
  - exact (proj1 (proj1 (splitFilePath_malformed_or_segments "aaa//bbb")) eq_refl).
Defined.

(** The pieces of a string are free of separators, and the separators
    put back between them give the string again. *)
Lemma pieces_sep_free (q : string) :
  ∀ x, x ∈ pieces q → contains_sep x = false.
Proof.
  induction q as [|c r IH]; intros x Hx.
  - apply list_elem_of_singleton in Hx as ->. done.
  - cbn [pieces] in Hx. destruct (Ascii.eqb c sep) eqn:Hc.
    + apply elem_of_cons in Hx as [-> | Hx]; [done | by apply IH].
    + destruct (pieces r) as [|h t] eqn:Hp; [by apply pieces_not_nil in Hp|].
      apply elem_of_cons in Hx as [-> | Hx].
      * cbn [contains_sep]. rewrite Hc. apply IH. by left.
      * apply IH. by right.
Qed.

Lemma pieces_join (q : string) : join (pieces q) = q.
Proof.
  induction q as [|c r IH]; [done|].
  cbn [pieces]. destruct (Ascii.eqb c sep) eqn:Hc.
  - apply ascii_eqb_true in Hc as ->.
    destruct (pieces r) as [|h t] eqn:Hp; [by apply pieces_not_nil in Hp|].
    cbn [join]. cbn [join] in IH. by rewrite IH.
  - destruct (pieces r) as [|h t] eqn:Hp; [by apply pieces_not_nil in Hp|].
    destruct t as [|h' t]; cbn [join] in *; [by rewrite IH|].
    by rewrite append_cons, IH.
Qed.

Lemma segments_join (p : string) :
  join (segments p) = strip_trailing_sep p.
Proof. destruct p as [|c r]; [done|]. unfold segments. apply pieces_join. Qed.

Lemma append_sep_not_empty (p : string) : p +:+ "/" ≠ "".
Proof. by destruct p. Qed.

Lemma begins_with_sep_append (p q : string) :
  p ≠ "" → begins_with_sep (p +:+ q) = begins_with_sep p.
Proof. by destruct p. Qed.

Lemma has_adjacent_seps_append_sep (p : string) :
  p ≠ "" → ends_with_sep p = false →
  has_adjacent_seps (p +:+ "/") = has_adjacent_seps p.
Proof.
  induction p as [|c r IH]; intros Hne Hend; [done|].
  rewrite append_cons, !has_adjacent_seps_cons.
  destruct r as [|c' r'].
  - cbn [ends_with_sep] in Hend. rewrite append_nil_l, Hend. done.
  - rewrite IH by done. by rewrite begins_with_sep_append.
Qed.

Lemma strip_trailing_sep_append_sep (p : string) :
  strip_trailing_sep (p +:+ "/") = p.
Proof.
  induction p as [|c r IH]; [done|].
  rewrite append_cons.
  destruct (r +:+ "/") as [|c' q] eqn:Hq.
  { by apply append_sep_not_empty in Hq. }
  cbn [strip_trailing_sep]. by rewrite <- IH.
Qed.

Lemma strip_trailing_sep_id (p : string) :
  ends_with_sep p = false → strip_trailing_sep p = p.
Proof.
  induction p as [|c r IH]; intros Hend; [done|].
  destruct r as [|c' r'].
  - cbn [ends_with_sep] in Hend. cbn [strip_trailing_sep]. by rewrite Hend.
  - cbn [strip_trailing_sep]. f_equal. by apply IH.
Qed.

Lemma segments_append_sep (p : string) :
  p ≠ "" → ends_with_sep p = false → segments (p +:+ "/") = segments p.
Proof.
  intros Hne Hend. destruct p as [|c r]; [done|].
  rewrite append_cons. unfold segments.
  rewrite <- append_cons, strip_trailing_sep_append_sep.
  by rewrite strip_trailing_sep_id.
Qed.

(** A segment that [splitLoop] returns is empty only if the segment in
    progress was empty and nothing, or a separator, came next. *)
Lemma splitLoop_empty_segment (rest : string) :
  ∀ curSplit names,
    splitLoop rest curSplit = Ret names → "" ∈ names →
    curSplit = "" ∧ (rest = "" ∨ begins_with_sep rest = true).
Proof.
  induction rest as [|c r IH]; intros cur names Hrun Hin.
  - cbn [splitLoop] in Hrun. inversion Hrun; subst.
    apply list_elem_of_singleton in Hin. auto.
  - destruct (Ascii.eqb c sep) eqn:Hc.
    + destruct r as [|c' r'].
      * rewrite splitLoop_last_sep in Hrun by done. inversion Hrun; subst.
        apply list_elem_of_singleton in Hin. cbn [begins_with_sep]. auto.
      * rewrite splitLoop_cons_cons, Hc in Hrun.
        destruct (Ascii.eqb c' sep) eqn:Hc'; [done|].
        destruct (splitLoop (String c' r') "") as [names'|] eqn:Hrest; [|done].
        cbn [throwing_map] in Hrun. inversion Hrun; subst.
        apply elem_of_cons in Hin as [<- | Hin].
        { cbn [begins_with_sep]. auto. }
        destruct (IH "" names' Hrest Hin) as [_ [? | Hsep]]; [done|].
        cbn [begins_with_sep] in Hsep. congruence.
    + rewrite splitLoop_cons_other in Hrun by done.
      destruct (IH _ _ Hrun Hin) as [Hempty _].
      by apply push_back_not_empty in Hempty.
Qed.

Lemma splitFilePath_no_empty_segment (p : string) (names : list string) :
  splitFilePath p = Ret names → "" ∉ names.
Proof.
  intros Hrun Hin. destruct p as [|c r].
  - inversion Hrun; subst. by apply not_elem_of_nil in Hin.
  - unfold splitFilePath in Hrun.
    destruct (Ascii.eqb c sep) eqn:Hc; [done|].
    destruct (splitLoop_empty_segment _ _ _ Hrun Hin) as [_ [? | Hsep]]; [done|].
    cbn [begins_with_sep] in Hsep. congruence.
Qed.

(** C8, as stated, fails at the empty path: a lone separator is rejected
    as a leading one, while the empty path splits into no segment. *)
Lemma split_trailing_sep_counterexample :
  ¬ (∀ p, splitFilePath (p +:+ "/") = splitFilePath p).
Proof. intros Hall. specialize (Hall ""). discriminate Hall. Qed.

(** C8, amended: for a non-empty path that does not already end with the
    separator, one trailing separator changes nothing in the result of
    [splitFilePath] (same segments, same exception); and no successful
    split, with or without a trailing separator, holds an empty segment. *)
Theorem split_trailing_sep (p : string) :
  p ≠ "" → ends_with_sep p = false →
  splitFilePath (p +:+ "/") = splitFilePath p ∧
  ∀ q names, splitFilePath q = Ret names → "" ∉ names.
Proof.
  intros Hne Hend. split; [|apply splitFilePath_no_empty_segment].
  rewrite !splitFilePath_cases.
  rewrite begins_with_sep_append, has_adjacent_seps_append_sep by done.
  by rewrite segments_append_sep.
Qed.

Lemma split_trailing_sep_witness :
  splitFilePath ("aaa/bbb" +:+ "/") = splitFilePath "aaa/bbb" ∧
  ∀ q names, splitFilePath q = Ret names → "" ∉ names.
Proof. apply (split_trailing_sep "aaa/bbb"); [discriminate | reflexivity]. Defined.

(** ** The extension of a file name *)

Lemma dots_push_back (n : nat) : push_back (dots n) dot = dots (S n).
Proof.
  unfold push_back. induction n as [|n IH]; [done|].
  cbn [dots]. rewrite append_cons, IH. done.
Qed.

(** The inner loop pushes the character at [i], [count] times. *)
Lemma extensionLoop_dots (fileName : string) (i count n : nat) :
  String.get i fileName = Some dot →
  extensionLoop fileName i count (dots n) = dots (count + n).
Proof.
  intros Hget. revert n. induction count as [|count IH]; intros n; [done|].
  cbn [extensionLoop]. rewrite Hget, dots_push_back, IH. f_equal. lia.
Qed.

(** The outer loop over a range that holds no dot finds nothing. *)
Lemma extensionScan_no_dot (fileName : string) (size k : nat) :
  (∀ i, i < k → String.get i fileName ≠ Some dot) →
  extensionScan fileName size k = "".
Proof.
  induction k as [|k IH]; intros Hnone; [done|].
  cbn [extensionScan].
  destruct (String.get k fileName) as [c|] eqn:Hget.
  - destruct (Ascii.eqb c dot) eqn:Hc.
    + apply ascii_eqb_true in Hc as ->. by destruct (Hnone k ltac:(lia)).
    + apply IH. intros i Hi. apply Hnone. lia.
  - apply IH. intros i Hi. apply Hnone. lia.
Qed.

(** The outer loop stops at the last dot below [k]. *)
Lemma extensionScan_last_dot (fileName : string) (size j k : nat) :
  j < k →
  String.get j fileName = Some dot →
  (∀ i, j < i < k → String.get i fileName ≠ Some dot) →
  extensionScan fileName size k =
  extensionLoop fileName j (size - (j + 1)) "".
Proof.
  induction k as [|k IH]; intros Hjk Hget Hnone; [lia|].
  cbn [extensionScan].
  destruct (decide (j = k)) as [->|Hne].
  - rewrite Hget. change (Ascii.eqb dot dot) with true. done.
  - assert (String.get k fileName ≠ Some dot) as Hk by (apply Hnone; lia).
    assert (extensionScan fileName size k =
            extensionLoop fileName j (size - (j + 1)) "") as Hrec.
    { apply IH; [lia | done |]. intros i Hi. apply Hnone. lia. }
    destruct (String.get k fileName) as [c|]; [|done].
    destruct (Ascii.eqb c dot) eqn:Hc; [|done].
    apply ascii_eqb_true in Hc as ->. done.
Qed.

Lemma suffix_after_last_dot_None (name : string) :
  suffix_after_last_dot name = None →
  ∀ i, String.get i name ≠ Some dot.
Proof.
  induction name as [|c r IH]; intros Hnone i; [done|].
  cbn [suffix_after_last_dot] in Hnone.
  destruct (suffix_after_last_dot r) eqn:Hr; [done|].
  destruct (Ascii.eqb c dot) eqn:Hc; [done|].
  destruct i as [|i]; cbn [String.get].
  - intros [= ->]. by rewrite Ascii.eqb_refl in Hc.
  - by apply IH.
Qed.

Lemma suffix_after_last_dot_Some (name suf : string) :
  suffix_after_last_dot name = Some suf →
  ∃ j, String.get j name = Some dot ∧
       String.length name = j + 1 + String.length suf ∧
       ∀ i, j < i → String.get i name ≠ Some dot.
Proof.
  revert suf. induction name as [|c r IH]; intros suf Hsuf; [done|].
  cbn [suffix_after_last_dot] in Hsuf.
  destruct (suffix_after_last_dot r) as [suf'|] eqn:Hr.
  - injection Hsuf as ->. destruct (IH suf eq_refl) as (j & Hget & Hlen & Hlast).
    exists (S j). cbn [String.get String.length]. split; [done|]. split; [lia|].
    intros [|i] Hi; [lia|]. apply Hlast. lia.
  - destruct (Ascii.eqb c dot) eqn:Hc; [|done].
    injection Hsuf as ->. apply ascii_eqb_true in Hc as ->.
    exists 0. cbn [String.get String.length]. split; [done|]. split; [lia|].
    intros [|i] Hi; [lia|]. by apply suffix_after_last_dot_None.
Qed.

(** A size that fits an [int] is converted to itself. *)
Lemma to_int_fits (n : Z) : (0 ≤ n ≤ INT_MAX)%Z → to_int n = n.
Proof.
  unfold to_int, INT_MAX, INT_MIN. intros Hn.
  rewrite Z.mod_small by lia. lia.
Qed.

(** What [getFileExtension] computes for a name whose size fits an
    [int]: as many dots as the suffix after the last dot has characters. *)
Lemma getFileExtension_dots (fileName : string) :
  (Z.of_nat (String.length fileName) ≤ INT_MAX)%Z →
  getFileExtension fileName = Some (dots (String.length (extension_of fileName))).
Proof.
  intros Hfits. unfold getFileExtension. rewrite to_int_fits by lia.
  destruct (Z.eqb_spec (Z.of_nat (String.length fileName)) INT_MIN) as [Hmin|_];
    [unfold INT_MIN in Hmin; lia|].
  rewrite Nat2Z.id. f_equal. unfold extension_of.
  destruct (suffix_after_last_dot fileName) as [suf|] eqn:Hsuf.
  - destruct (suffix_after_last_dot_Some _ _ Hsuf) as (j & Hget & Hlen & Hlast).
    rewrite (extensionScan_last_dot fileName _ j)
      by (try done; try lia; intros; apply Hlast; lia).
    rewrite (extensionLoop_dots fileName j _ 0 Hget).
    f_equal. lia.
  - apply extensionScan_no_dot. intros i _. by apply suffix_after_last_dot_None.
Qed.

Lemma getFileExtension_no_dot (fileName : string) :
  (Z.of_nat (String.length fileName) ≤ INT_MAX)%Z →
  suffix_after_last_dot fileName = None → getFileExtension fileName = Some "".
Proof.
  intros Hfits Hnone. rewrite getFileExtension_dots by done.
  unfold extension_of. by rewrite Hnone.
Qed.

(** ** Running the operations *)

Lemma walk_Val (names : list string) :
  ∀ p s q s', walk names p s = Val q s' → s' = s.
Proof.
  induction names as [|name names IH]; intros p s q s' Hwalk.
  - by injection Hwalk as _ ->.
  - cbn [walk] in Hwalk. revert Hwalk. run. apply IH.
Qed.

Lemma walk_Exc (names : list string) :
  ∀ p s e s',
    walk names p s = Exc e s' →
    s' = s ∧ e = runtime_error "Destination folder can't be found".
Proof.
  induction names as [|name names IH]; intros p s e s' Hwalk; [done|].
  cbn [walk] in Hwalk. revert Hwalk. run; [apply IH | by intros [= <- <-]].
Qed.

Lemma addFolder_Exc (this : addr) (name : string) (p : addr) (s : state) e s' :
  addFolder this name p s ≠ Exc e s'.
Proof. unfold addFolder. run. Qed.

Lemma addFile_Exc (this : addr) (name : string) (f : File.t) (s : state) e s' :
  addFile this name f s ≠ Exc e s'.
Proof. unfold addFile. run. Qed.

Lemma removeFolder_Exc (this : addr) (name : string) (s : state) e s' :
  removeFolder this name s ≠ Exc e s'.
Proof. unfold removeFolder. run. Qed.

Lemma removeFile_Exc (this : addr) (name : string) (s : state) e s' :
  removeFile this name s ≠ Exc e s'.
Proof. unfold removeFile. run. Qed.

(** ** Failed calls *)

(** An exception raised in the body of [changeDirectory] finds the state
    as the call found it. *)
Lemma changeDirectory_body_Exc (destinationFolder : string) (p : addr) (s : state) e s' :
  (names <- call (splitFilePath destinationFolder) ;;
   q <- walk names p ;;
   set_current q destinationFolder) s = Exc e s' →
  s' = s.
Proof.
  unfold bind at 1. unfold call.
  destruct (splitFilePath destinationFolder) as [names|e0]; [|by intros [= _ <-]].
  unfold ret, bind, set_current.
  destruct (walk names p s) as [q s0|e0 s0| |] eqn:Hwalk; try done.
  intros [= _ <-]. by apply walk_Exc in Hwalk as [-> _].
Qed.

(** Whatever exception is raised in a mutating operation, no write to the
    state came before it. *)
Lemma failure_keeps_state (m : mutation) (s s' : state) :
  failure (perform m s) = Some s' → s' = s.
Proof.
  destruct m as [d r|n|n c|n c|n|n]; cbn [perform].
  - unfold changeDirectory.
    destruct (String.eqb (currentDirPath_ s) d); [done|].
    unfold try_catch_runtime_error.
    match goal with |- context [?body s] =>
      destruct (body s) as [a s0|e s0| |] eqn:Hbody end; try done.
    apply changeDirectory_body_Exc in Hbody as ->.
    destruct e; by intros [= <-].
  - unfold createFolder, try_catch_invalid_argument.
    match goal with |- context [?body s] =>
      destruct (body s) as [a s0|e s0| |] eqn:Hbody end; try done.
    intros Hfail. assert (s' = s0) as -> by (destruct e; by injection Hfail).
    clear Hfail. revert Hbody. unfold throwIfNameInvalid. run; same_state.
    intros Hadd. by apply addFolder_Exc in Hadd.
  - unfold createFile, try_catch_invalid_argument.
    match goal with |- context [?body s] =>
      destruct (body s) as [a s0|e s0| |] eqn:Hbody end; try done.
    intros Hfail. assert (s' = s0) as -> by (destruct e; by injection Hfail).
    clear Hfail. revert Hbody. unfold throwIfNameInvalid. run; same_state.
    intros Hadd. by apply addFile_Exc in Hadd.
  - unfold updateFile, try_catch_invalid_argument.
    match goal with |- context [?body s] =>
      destruct (body s) as [a s0|e s0| |] eqn:Hbody end; try done.
    intros Hfail. assert (s' = s0) as -> by (destruct e; by injection Hfail).
    clear Hfail. revert Hbody. unfold throwIfNameInvalid. run; same_state.
  - unfold deleteFolder, try_catch_invalid_argument.
    match goal with |- context [?body s] =>
      destruct (body s) as [a s0|e s0| |] eqn:Hbody end; try done.
    intros Hfail. assert (s' = s0) as -> by (destruct e; by injection Hfail).
    clear Hfail. revert Hbody. unfold throwIfNameInvalid. run; same_state.
    intros Hrm. by apply removeFolder_Exc in Hrm.
  - unfold deleteFile, try_catch_invalid_argument.
    match goal with |- context [?body s] =>
      destruct (body s) as [a s0|e s0| |] eqn:Hbody end; try done.
    intros Hfail. assert (s' = s0) as -> by (destruct e; by injection Hfail).
    clear Hfail. revert Hbody. unfold throwIfNameInvalid. run; same_state.
    intros Hrm. by apply removeFile_Exc in Hrm.
Qed.

(** C2: a mutating call that fails, whether the failure is reported by the
    operation or leaves it as an exception, hands back the state it was
    given: heap of folders, allocation counter, root, current-folder
    pointer and current-path string.  For [changeDirectory] this holds
    wherever along the segments the resolution stops. *)
Theorem failed_call_changes_nothing (m : mutation) (s s' : state) :
  failure (perform m s) = Some s' → s' = s.
Proof. apply failure_keeps_state. Qed.

Lemma failed_call_changes_nothing_witness :
  failure (perform (ChangeDirectory "aaa/zzz" false) in_aaa) = Some in_aaa ∧
  in_aaa = in_aaa.
Proof.
  assert (failure (perform (ChangeDirectory "aaa/zzz" false) in_aaa) = Some in_aaa)
    as Hfail by (vm_compute; reflexivity).
  split; [exact Hfail|].
  exact (failed_call_changes_nothing _ _ _ Hfail).
Defined.

(** ** The driver's states are reachable *)

Lemma reachable_with_aaa : reachable with_aaa.
Proof.
  apply (reachable_step (CreateFolder "aaa") initial); [apply reachable_initial|].
  vm_compute. reflexivity.
Qed.

Lemma reachable_in_aaa : reachable in_aaa.
Proof.
  apply (reachable_step (ChangeDirectory "aaa" true) with_aaa);
    [apply reachable_with_aaa|].
  vm_compute. reflexivity.
Qed.


Lemma reachable_back_at_root : reachable back_at_root.
Proof.
  apply (reachable_step (ChangeDirectory ".." true) in_aaa); [apply reachable_in_aaa|].
  vm_compute. reflexivity.
Qed.

(** ** Which failures an operation catches *)

(** A name with a separator in it: every operation that takes a bare
    name catches the [std::invalid_argument] and reports it. *)
Lemma invalid_name_reported (name content : string) (s : state) :
  contains_sep name = true →
  ∃ what,
    invalid_name_error = invalid_argument what ∧
    createFolder name s = Reported ("Error while creating folder: " +:+ what) s ∧
    createFile name content s = Reported ("Error while creating file: " +:+ what) s ∧
    updateFile name content s = Reported ("Error while updating file: " +:+ what) s ∧
    deleteFolder name s = Reported ("Error while deleting folder: " +:+ what) s ∧
    deleteFile name s = Reported ("Error while deleting file: " +:+ what) s ∧
    printFileContents name s = Reported ("Error while printing file: " +:+ what) s.
Proof.
  intros Hsep. eexists. split; [reflexivity|].
  unfold createFolder, createFile, updateFile, deleteFolder, deleteFile,
    printFileContents, try_catch_invalid_argument, throwIfNameInvalid, bind, call.
  rewrite Hsep. done.
Qed.

(** A name that is taken, or missing: the [std::runtime_error] of the
    existence test passes the [std::invalid_argument] handler and leaves
    the operation; out of the [noexcept] [printFileContents] it ends the
    process. *)
Lemma existence_failure_escapes (name content : string) (s : state) (cur : Folder.t) :
  contains_sep name = false →
  heap s !! currentDirPointer_ s = Some cur →
  (is_Some (Folder.folders_ cur !! name) →
     createFolder name s = Escaped (runtime_error "Folder already exists") s) ∧
  (is_Some (Folder.files_ cur !! name) →
     createFile name content s = Escaped (runtime_error "File already exists") s) ∧
  (Folder.files_ cur !! name = None →
     updateFile name content s = Escaped (runtime_error "File doesn't exists") s ∧
     deleteFile name s = Escaped (runtime_error "File doesn't exists") s ∧
     printFileContents name s = Terminated) ∧
  (Folder.folders_ cur !! name = None →
     deleteFolder name s = Escaped (runtime_error "Folder doesn't exists") s).
Proof.
  intros Hsep Hcur.
  unfold createFolder, createFile, updateFile, deleteFolder, deleteFile,
    printFileContents, try_catch_invalid_argument, throwIfNameInvalid, count.
  unfold_monad. rewrite Hsep, Hcur.
  split; [by intros [c ->]|].
  split; [by intros [c ->]|].
  split; [intros ->; by repeat split | by intros ->].
Qed.

(** C1: the existence failures are not caught.  On the driver's states:
    a second [createFolder] of the same name, a second [createFile], and
    an update or a deletion of a missing name let a [std::runtime_error]
    out to the caller; [printFileContents] of a missing file ends the
    process. *)
Theorem existence_failures_are_not_caught :
  createFolder "aaa" with_aaa
    = Escaped (runtime_error "Folder already exists") with_aaa ∧
  createFile "yoyo" "huhu" (after (createFile "yoyo" "huhu" initial) initial)
    = Escaped (runtime_error "File already exists")
        (after (createFile "yoyo" "huhu" initial) initial) ∧
  updateFile "yoyo" "huhu" initial
    = Escaped (runtime_error "File doesn't exists") initial ∧
  deleteFolder "ccc" initial
    = Escaped (runtime_error "Folder doesn't exists") initial ∧
  deleteFile "yoyo" initial
    = Escaped (runtime_error "File doesn't exists") initial ∧
  printFileContents "yoyo" initial = Terminated.
Proof. repeat split; vm_compute; reflexivity. Qed.

(** ** Created nodes *)

(** C3: the extension stored for ["a.txt"] is three dots, where the
    suffix after the last dot is ["txt"]. *)
Theorem extension_of_a_txt :
  ∃ s' file,
    createFile "a.txt" "" initial = Done tt s' ∧
    child_file "a.txt" s' = Some file ∧
    File.fileExtension_ (File.metadata_ file) = "..." ∧
    extension_of "a.txt" = "txt".
Proof. eexists _, _. repeat split; vm_compute; reflexivity. Qed.

(** A successful [createFolder], step by step. *)
Lemma createFolder_Done (name : string) (s s' : state) :
  createFolder name s = Done tt s' →
  ∃ cur cur',
    contains_sep name = false ∧
    heap s !! currentDirPointer_ s = Some cur ∧
    Folder.folders_ cur !! name = None ∧
    let new := Folder_new (currentDirPath_ s +:+ "/" +:+ name)
                 (Some (currentDirPointer_ s)) in
    <[next_addr s := new]> (heap s) !! currentDirPointer_ s = Some cur' ∧
    Folder.foldersCount_ (Folder.metadata_ cur') ≠ INT_MAX ∧
    s' = mkState
           (<[currentDirPointer_ s :=
                with_folders cur' (Folder.foldersCount_ (Folder.metadata_ cur') + 1)
                  (<[name := next_addr s]> (Folder.folders_ cur'))]>
              (<[next_addr s := new]> (heap s)))
           (S (next_addr s)) (rootFolder s) (currentDirPointer_ s) (currentDirPath_ s).
Proof.
  unfold createFolder, try_catch_invalid_argument, throwIfNameInvalid, addFolder, count.
  intros Hrun. revert Hrun. run. intros [= <-].
  eexists _, _. split; [done|]. split; [eassumption|]. split; [done|].
  split; [eassumption|]. split; [by apply Z.eqb_neq | done].
Qed.

(** What [createFolder] stores as the full path of the folder it makes:
    the manager's current-path string at the time of the call, then the
    separator, then the name.  The full path of the parent is not read. *)
Lemma created_folder_path (name : string) (s s' : state) :
  createFolder name s = Done tt s' →
  ∃ child,
    child_folder name s' = Some child ∧
    Folder.fullPath_ (Folder.metadata_ child) = currentDirPath_ s +:+ "/" +:+ name.
Proof.
  intros Hrun.
  apply createFolder_Done in Hrun as (cur & cur' & _ & _ & _ & Hcur' & _ & ->).
  unfold child_folder. cbn [heap currentDirPointer_].
  rewrite lookup_insert_eq. cbn [mbind option_bind with_folders Folder.folders_].
  rewrite lookup_insert_eq. cbn [mbind option_bind].
  destruct (decide (next_addr s = currentDirPointer_ s)) as [Heq|Hne].
  - rewrite Heq, lookup_insert_eq in *. injection Hcur' as <-. by eexists.
  - rewrite lookup_insert_ne, lookup_insert_eq by done. by eexists.
Qed.

(** C4: the full path stored in a new folder is not made from the full
    path of its parent.  On a fresh storage, ["aaa"] made in the root,
    whose path is ["/"], gets the path ["//aaa"], not ["/aaa"]; and
    ["bbb"] made in that folder after [changeDirectory("aaa", true)] gets
    the path ["aaa/bbb"], which does not even begin with the path
    ["//aaa"] of its parent. *)
Theorem created_folder_path_misses_parent :
  (∃ parent child,
     heap initial !! currentDirPointer_ initial = Some parent ∧
     Folder.fullPath_ (Folder.metadata_ parent) = "/" ∧
     createFolder "aaa" initial = Done tt with_aaa ∧
     child_folder "aaa" with_aaa = Some child ∧
     Folder.fullPath_ (Folder.metadata_ child) = "//aaa") ∧
  (∃ s' parent child,
     changeDirectory "aaa" true with_aaa = Done tt in_aaa ∧
     heap in_aaa !! currentDirPointer_ in_aaa = Some parent ∧
     Folder.fullPath_ (Folder.metadata_ parent) = "//aaa" ∧
     createFolder "bbb" in_aaa = Done tt s' ∧
     child_folder "bbb" s' = Some child ∧
     Folder.fullPath_ (Folder.metadata_ child) = "aaa/bbb").
Proof.
  split.
  - eexists _, _. repeat split; vm_compute; reflexivity.
  - eexists _, _, _. repeat split; vm_compute; reflexivity.
Qed.

(** ** The reserved name *)

(** In a folder that has its [".."] entry, [createFolder("..")] stops at
    the existence test. *)
Lemma createFolder_up_with_parent (s : state) (cur : Folder.t) :
  heap s !! currentDirPointer_ s = Some cur →
  is_Some (Folder.folders_ cur !! up) →
  createFolder up s = Escaped (runtime_error "Folder already exists") s.
Proof.
  intros Hcur Hup.
  by apply (existence_failure_escapes up "" s cur eq_refl Hcur).
Qed.

(** C6: in the root, which has no [".."] entry, [createFolder("..")]
    succeeds: a folder that did not exist before is bound to the reserved
    name and counted as a child of the root. *)
Theorem createFolder_up_at_root :
  ∃ s' root p child,
    createFolder up initial = Done tt s' ∧
    reachable s' ∧
    heap s' !! rootFolder s' = Some root ∧
    Folder.parentFolder_ root = None ∧
    Folder.folders_ root !! up = Some p ∧
    Folder.foldersCount_ (Folder.metadata_ root) = 1%Z ∧
    heap initial !! p = None ∧
    heap s' !! p = Some child ∧
    Folder.parentFolder_ child = Some (rootFolder s').
Proof.
  eexists _, _, _, _. split; [vm_compute; reflexivity|]. split.
  { apply (reachable_step (CreateFolder up) initial); [apply reachable_initial|].
    vm_compute. reflexivity. }
  repeat split; vm_compute; reflexivity.
Qed.

(** Such a child is passed over by the destructor of the root: deleting
    the root leaves it in the heap. *)
Lemma real_up_child_outlives_root :
  ∃ h, destroy 2 0 (heap (after (createFolder up initial) initial)) = Freed h ∧
       is_Some (h !! 1).
Proof. eexists. split; [vm_compute; reflexivity|]. vm_compute. eauto. Qed.

(** ** Changing the directory *)

Lemma string_eqb_false (a b : string) : String.eqb a b = false ↔ a ≠ b.
Proof. apply String.eqb_neq. Qed.






(** C10, as stated, fails for a manager that came back to the root by
    [changeDirectory("..", true)]: its current-path string is [".."], the
    same call again is the fast path and reports nothing. *)
Lemma changeDirectory_up_at_root_counterexample :
  ¬ (∀ s root,
       reachable s →
       currentDirPointer_ s = rootFolder s →
       heap s !! rootFolder s = Some root →
       Folder.folders_ root !! up = None →
       ∃ diag, changeDirectory up true s = Reported diag s).
Proof.
  intros Hall.
  assert (∃ root, heap back_at_root !! rootFolder back_at_root = Some root ∧
                  Folder.folders_ root !! up = None) as (root & Hroot & Hup).
  { eexists. split; vm_compute; reflexivity. }
  destruct (Hall back_at_root root reachable_back_at_root eq_refl Hroot Hup)
    as [diag Hrun].
  vm_compute in Hrun. discriminate Hrun.
Qed.

(** C10, amended: for a manager that stands on the root, whose
    current-path string is not the literal [".."], and whose root has no
    entry named [".."], [changeDirectory("..", true)] reports that the
    destination folder can't be found and leaves the state as it was. *)
Theorem changeDirectory_up_at_root (s : state) (root : Folder.t) :
  currentDirPointer_ s = rootFolder s →
  heap s !! rootFolder s = Some root →
  Folder.folders_ root !! up = None →
  currentDirPath_ s ≠ up →
  changeDirectory up true s
  = Reported ("Couldn't change directory: " +:+ "Destination folder can't be found") s.
Proof.
  intros Hat Hroot Hup Hpath. unfold changeDirectory.
  apply string_eqb_false in Hpath. rewrite Hpath.
  unfold try_catch_runtime_error, bind at 1.
  change (splitFilePath up) with (Ret (A := list string) [up]).
  unfold call, ret, bind. cbn [walk]. unfold bind, deref.
  rewrite Hat, Hroot, Hup. done.
Qed.

Lemma changeDirectory_up_at_root_witness :
  changeDirectory up true initial
  = Reported ("Couldn't change directory: " +:+ "Destination folder can't be found")
      initial.
Proof.
  apply (changeDirectory_up_at_root initial (Folder_new "/" None));
    [reflexivity | reflexivity | reflexivity | discriminate].
Defined.

(** ** Deleting folders *)

Lemma destroy_entry_Freed del acc entry h' :
  destroy_entry del acc entry = Freed h' →
  ∃ h0, acc = Freed h0 ∧
        ((entry.1 = up ∧ h' = h0) ∨ (entry.1 ≠ up ∧ del entry.2 h0 = Freed h')).
Proof.
  unfold destroy_entry. destruct acc as [h0| |]; [|done..].
  destruct (String.eqb entry.1 up) eqn:Hname; intros Hdel.
  - apply String.eqb_eq in Hname. injection Hdel as <-. eauto.
  - apply String.eqb_neq in Hname. eauto.
Qed.

(** The destructor's loop only takes folders out of the heap. *)
Lemma destroy_loop_subseteq del :
  (∀ p h h', del p h = Freed h' → h' ⊆ h) →
  ∀ entries acc h',
    foldl (destroy_entry del) acc entries = Freed h' →
    ∃ h0, acc = Freed h0 ∧ h' ⊆ h0.
Proof.
  intros Hdel. induction entries as [|entry entries IH]; intros acc h' Hloop.
  - cbn [foldl] in Hloop. subst acc. eauto.
  - cbn [foldl] in Hloop. apply IH in Hloop as (h1 & Hentry & Hsub).
    apply destroy_entry_Freed in Hentry as (h0 & -> & [[_ ->] | [_ Hrec]]).
    + eauto.
    + exists h0. split; [done|]. etrans; [exact Hsub | by eapply Hdel].
Qed.

Lemma destroy_subseteq (fuel : nat) :
  ∀ p h h', destroy fuel p h = Freed h' → h' ⊆ h.
Proof.
  induction fuel as [|fuel IH]; intros p h h' Hdestroy.
  - cbn [destroy] in Hdestroy. by destruct (h !! p).
  - cbn [destroy] in Hdestroy.
    destruct (h !! p) as [f|]; [|done].
    destruct (foldl _ _ _) as [h1| |] eqn:Hloop; [|done..].
    apply (destroy_loop_subseteq _ IH) in Hloop as (h0 & [= <-] & Hsub).
    destruct (h1 !! p); [|done]. injection Hdestroy as <-.
    etrans; [apply delete_subseteq | exact Hsub].
Qed.

Lemma bounded_subseteq (h0 h : gmap addr Folder.t) (n : addr) :
  h0 ⊆ h → bounded h n → bounded h0 n.
Proof. intros Hsub Hb p f Hp. eapply Hb, lookup_weaken; eauto. Qed.

Lemma ordered_subseteq (h0 h : gmap addr Folder.t) :
  h0 ⊆ h → ordered h → ordered h0.
Proof. intros Hsub Ho p f name c Hp. eapply Ho, lookup_weaken; eauto. Qed.

(** With every child allocated after its parent, the loop of the
    destructor on the folder at [p] stays within the bound. *)
Lemma destroy_loop_total del (h : gmap addr Folder.t) (p : addr) :
  (∀ c h0, p < c → h0 ⊆ h → del c h0 ≠ Exhausted) →
  (∀ c h0 h1, del c h0 = Freed h1 → h1 ⊆ h0) →
  ∀ entries acc,
    (∀ name c, (name, c) ∈ entries → name ≠ up → p < c) →
    acc ≠ Exhausted →
    (∀ h0, acc = Freed h0 → h0 ⊆ h) →
    foldl (destroy_entry del) acc entries ≠ Exhausted.
Proof.
  intros Htotal Hsub. induction entries as [|[name c] entries IH];
    intros acc Hentries Hacc Hin; [done|].
  cbn [foldl]. apply IH.
  - intros name' c' Hel. apply Hentries. by right.
  - unfold destroy_entry. destruct acc as [h0| |]; [|done..]. cbn [fst snd].
    destruct (String.eqb name up) eqn:Hname; [done|].
    apply String.eqb_neq in Hname. apply Htotal; [|by apply Hin].
    apply (Hentries name c); [by left | done].
  - intros h1 Hentry.
    apply destroy_entry_Freed in Hentry as (h0 & -> & [[_ ->] | [_ Hrec]]).
    + by apply Hin.
    + etrans; [by eapply Hsub | by apply Hin].
Qed.

(** The recursion of [delete] never runs out of the bound that [release]
    gives it. *)
Lemma destroy_total (fuel : nat) :
  ∀ (p : addr) h n,
    bounded h n → ordered h → n ≤ fuel + p → destroy fuel p h ≠ Exhausted.
Proof.
  induction fuel as [|fuel IH]; intros p h n Hb Ho Hfuel.
  - cbn [destroy]. destruct (h !! p) as [f|] eqn:Hp; [|done].
    apply Hb in Hp. lia.
  - cbn [destroy]. destruct (h !! p) as [f|] eqn:Hp; [|done].
    destruct (foldl _ _ _) as [h1| |] eqn:Hloop.
    + by destruct (h1 !! p).
    + done.
    + exfalso. revert Hloop. apply (destroy_loop_total _ h p).
      * intros c h0 Hc Hsub. apply (IH c h0 n); [| |lia].
        -- by eapply bounded_subseteq.
        -- by eapply ordered_subseteq.
      * apply destroy_subseteq.
      * intros name c Hel Hname. apply elem_of_map_to_list in Hel.
        by eapply Ho.
      * done.
      * by intros h0 [= <-].
Qed.

(** ** Successful calls, step by step *)

Lemma changeDirectory_Done (destinationFolder : string) (relative : bool)
    (s s' : state) :
  changeDirectory destinationFolder relative s = Done tt s' →
  s' = s ∨
  ∃ p, s' = mkState (heap s) (next_addr s) (rootFolder s) p destinationFolder.
Proof.
  unfold changeDirectory.
  destruct (String.eqb (currentDirPath_ s) destinationFolder); [intros [= <-]; auto|].
  unfold try_catch_runtime_error, bind at 1, call.
  destruct (splitFilePath destinationFolder) as [names|e]; [|by destruct e].
  unfold ret, bind, set_current.
  destruct (walk names _ s) as [p s0|e s0| |] eqn:Hwalk; try done; [|by destruct e].
  apply walk_Val in Hwalk as ->. intros [= <-]. eauto.
Qed.

(** [createFile], [updateFile] and [deleteFile] rewrite the current
    folder with a new file map and file count, and keep the count equal
    to the size of the map if it was. *)
Lemma files_Done (m : mutation) (s s' : state) :
  match m with
  | CreateFile _ _ | UpdateFile _ _ | DeleteFile _ => True
  | _ => False
  end →
  perform m s = Done tt s' →
  ∃ cur n fs,
    heap s !! currentDirPointer_ s = Some cur ∧
    (Folder.filesCount_ (Folder.metadata_ cur) = Z.of_nat (size (Folder.files_ cur)) →
     n = Z.of_nat (size fs)) ∧
    s' = mkState (<[currentDirPointer_ s := with_files cur n fs]> (heap s))
           (next_addr s) (rootFolder s) (currentDirPointer_ s) (currentDirPath_ s).
Proof.
  destruct m as [d r|n|n c|n c|n|n]; try done; intros _; cbn [perform];
    unfold createFile, updateFile, deleteFile, try_catch_invalid_argument,
      throwIfNameInvalid, addFile, removeFile, count;
    intros Hrun; revert Hrun; run; intros [= <-];
    eexists _, _, _; (split; [eassumption|]); (split; [|reflexivity]); intros Hcount.
  - rewrite map_size_insert_None by done. lia.
  - rewrite map_size_insert_Some by done. lia.
  - rewrite map_size_delete_Some by done.
    match goal with
    | H : Folder.files_ ?cur !! _ = Some _ |- _ =>
        assert (size (Folder.files_ cur) ≠ 0) by (by eapply map_size_ne_0_lookup_2)
    end.
    lia.
Qed.

Lemma deleteFolder_Done (name : string) (s s' : state) :
  deleteFolder name s = Done tt s' →
  ∃ cur child h cur',
    heap s !! currentDirPointer_ s = Some cur ∧
    Folder.folders_ cur !! name = Some child ∧
    destroy (next_addr s) child (heap s) = Freed h ∧
    h !! currentDirPointer_ s = Some cur' ∧
    s' = mkState
           (<[currentDirPointer_ s :=
                with_folders cur' (Folder.foldersCount_ (Folder.metadata_ cur') - 1)
                  (delete name (Folder.folders_ cur'))]> h)
           (next_addr s) (rootFolder s) (currentDirPointer_ s) (currentDirPath_ s).
Proof.
  unfold deleteFolder, try_catch_invalid_argument, throwIfNameInvalid,
    removeFolder, count.
  intros Hrun. revert Hrun. run. intros [= <-].
  eexists _, _, _, _. repeat split; eassumption.
Qed.

(** ** Invariants of the reachable states *)

Lemma invariant_initial : invariant initial.
Proof.
  split; [split|]; unfold initial; cbn [heap next_addr].
  - intros p f Hp. apply lookup_singleton_Some in Hp as [<- _]. lia.
  - intros p f name c Hp Hname. apply lookup_singleton_Some in Hp as [_ <-].
    cbn [Folder_new Folder.folders_] in Hname. by rewrite lookup_empty in Hname.
  - intros p f Hp. cbn [heap] in Hp.
    apply lookup_singleton_Some in Hp as [_ <-]. done.
Qed.

Lemma invariant_cursor (s : state) (p : addr) (path : string) :
  invariant s →
  invariant (mkState (heap s) (next_addr s) (rootFolder s) p path).
Proof. done. Qed.

Lemma invariant_files (s : state) (cur : Folder.t) (n : Z) (fs : gmap string File.t) :
  invariant s →
  heap s !! currentDirPointer_ s = Some cur →
  (Folder.filesCount_ (Folder.metadata_ cur) = Z.of_nat (size (Folder.files_ cur)) →
   n = Z.of_nat (size fs)) →
  invariant (mkState (<[currentDirPointer_ s := with_files cur n fs]> (heap s))
               (next_addr s) (rootFolder s) (currentDirPointer_ s) (currentDirPath_ s)).
Proof.
  intros [[Hb Ho] Hc] Hcur Hn.
  split; [split|]; unfold bounded, ordered, all_counts_ok; cbn [heap next_addr].
  - intros p f [[<- _] | [_ Hp]]%lookup_insert_Some; by eapply Hb.
  - intros p f name c [[<- <-] | [_ Hp]]%lookup_insert_Some Hname Hup;
      by eapply Ho.
  - intros p f [[<- <-] | [_ Hp]]%lookup_insert_Some; [|by eapply Hc].
    destruct (Hc _ _ Hcur) as [Hfiles Hfolders]. split; [by apply Hn | done].
Qed.

Lemma invariant_created (s : state) (name : string) (cur cur' : Folder.t) :
  invariant s →
  heap s !! currentDirPointer_ s = Some cur →
  Folder.folders_ cur !! name = None →
  <[next_addr s := Folder_new (currentDirPath_ s +:+ "/" +:+ name)
                     (Some (currentDirPointer_ s))]> (heap s)
    !! currentDirPointer_ s = Some cur' →
  invariant
    (mkState
       (<[currentDirPointer_ s :=
            with_folders cur' (Folder.foldersCount_ (Folder.metadata_ cur') + 1)
              (<[name := next_addr s]> (Folder.folders_ cur'))]>
          (<[next_addr s := Folder_new (currentDirPath_ s +:+ "/" +:+ name)
                              (Some (currentDirPointer_ s))]> (heap s)))
       (S (next_addr s)) (rootFolder s) (currentDirPointer_ s) (currentDirPath_ s)).
Proof.
  intros [[Hb Ho] Hc] Hcur Hfree Hcur'.
  assert (currentDirPointer_ s < next_addr s) as Hlt by (by eapply Hb).
  rewrite lookup_insert_ne in Hcur' by lia.
  assert (cur' = cur) as -> by congruence. clear Hcur'.
  split; [split|]; unfold bounded, ordered, all_counts_ok; cbn [heap next_addr].
  - intros p f [[<- _] | [_ [[<- _] | [_ Hp]]%lookup_insert_Some]]%lookup_insert_Some.
    + lia.
    + lia.
    + apply Hb in Hp. lia.
  - intros p f n c
      [[<- <-] | [_ [[<- <-] | [_ Hp]]%lookup_insert_Some]]%lookup_insert_Some Hn Hup.
    + cbn [with_folders Folder.folders_] in Hn.
      apply lookup_insert_Some in Hn as [[_ <-] | [_ Hn]]; [done | by eapply Ho].
    + cbn [Folder_new Folder.folders_] in Hn.
      apply lookup_singleton_Some in Hn as [<- _]. done.
    + by eapply Ho.
  - intros p f [[<- <-] | [_ [[<- <-] | [_ Hp]]%lookup_insert_Some]]%lookup_insert_Some.
    + destruct (Hc _ _ Hcur) as [Hfiles Hfolders]. split; [done|].
      cbn [with_folders Folder.folders_ Folder.metadata_ Folder.foldersCount_
             Folder.parentFolder_].
      rewrite map_size_insert_None by done. lia.
    + split; [done|].
      cbn [Folder_new Folder.folders_ Folder.metadata_ Folder.foldersCount_
             Folder.parentFolder_].
      rewrite map_size_singleton. done.
    + by eapply Hc.
Qed.

Lemma invariant_deleted (s : state) (name : string) (child : addr)
    (cur cur' : Folder.t) (h : gmap addr Folder.t) :
  invariant s →
  heap s !! currentDirPointer_ s = Some cur →
  Folder.folders_ cur !! name = Some child →
  destroy (next_addr s) child (heap s) = Freed h →
  h !! currentDirPointer_ s = Some cur' →
  invariant
    (mkState
       (<[currentDirPointer_ s :=
            with_folders cur' (Folder.foldersCount_ (Folder.metadata_ cur') - 1)
              (delete name (Folder.folders_ cur'))]> h)
       (next_addr s) (rootFolder s) (currentDirPointer_ s) (currentDirPath_ s)).
Proof.
  intros [[Hb Ho] Hc] Hcur Hchild Hdestroy Hcur'.
  apply destroy_subseteq in Hdestroy as Hsub.
  assert (cur' = cur) as ->.
  { eapply lookup_weaken in Hcur'; [|exact Hsub]. congruence. }
  split; [split|]; unfold bounded, ordered, all_counts_ok; cbn [heap next_addr].
  - intros p f [[<- _] | [_ Hp]]%lookup_insert_Some; [by eapply Hb|].
    eapply Hb, lookup_weaken; eauto.
  - intros p f n c [[<- <-] | [_ Hp]]%lookup_insert_Some Hn Hup.
    + cbn [with_folders Folder.folders_] in Hn.
      apply lookup_delete_Some in Hn as [_ Hn]. by eapply Ho.
    + eapply Ho; [eapply lookup_weaken|..]; eauto.
  - intros p f [[<- <-] | [_ Hp]]%lookup_insert_Some.
    + destruct (Hc _ _ Hcur) as [Hfiles Hfolders]. split; [done|].
      cbn [with_folders Folder.folders_ Folder.metadata_ Folder.foldersCount_
             Folder.parentFolder_].
      rewrite map_size_delete_Some by done.
      assert (size (Folder.folders_ cur) ≠ 0) by (by eapply map_size_ne_0_lookup_2).
      lia.
    + eapply Hc, lookup_weaken; eauto.
Qed.

Lemma invariant_Done (m : mutation) (s s' : state) :
  invariant s → perform m s = Done tt s' → invariant s'.
Proof.
  intros Hinv Hrun. destruct m as [d r|n|n c|n c|n|n].
  - apply changeDirectory_Done in Hrun as [-> | [p ->]];
      [done | by apply invariant_cursor].
  - apply createFolder_Done in Hrun
      as (cur & cur' & _ & Hcur & Hfree & Hcur' & _ & ->).
    by eapply invariant_created.
  - apply files_Done in Hrun as (cur & k & fs & Hcur & Hk & ->); [|done].
    by apply invariant_files.
  - apply files_Done in Hrun as (cur & k & fs & Hcur & Hk & ->); [|done].
    by apply invariant_files.
  - apply deleteFolder_Done in Hrun
      as (cur & child & h & cur' & Hcur & Hchild & Hdestroy & Hcur' & ->).
    by eapply invariant_deleted.
  - apply files_Done in Hrun as (cur & k & fs & Hcur & Hk & ->); [|done].
    by apply invariant_files.
Qed.

Lemma returns_Done_or_failure (o : outcome unit) (s' : state) :
  returns o = Some s' → o = Done tt s' ∨ failure o = Some s'.
Proof. destruct o as [[] s0|d s0|e s0| | |]; cbn; intros [= <-]; auto. Qed.

Lemma reachable_invariant (s : state) : reachable s → invariant s.
Proof.
  induction 1 as [|m s s' _ IH Hret]; [apply invariant_initial|].
  apply returns_Done_or_failure in Hret as [Hdone | Hfail].
  - by eapply invariant_Done.
  - by apply failure_keeps_state in Hfail as ->.
Qed.

(** C5, as stated, fails in the first state of the driver: the folder
    ["aaa"] just created holds one entry, [".."], in its folder map, and
    a folder count of [0]. *)
Lemma counts_match_maps_counterexample :
  ¬ (∀ s p f,
       reachable s → heap s !! p = Some f →
       Folder.foldersCount_ (Folder.metadata_ f) = Z.of_nat (size (Folder.folders_ f)) ∧
       Folder.filesCount_ (Folder.metadata_ f) = Z.of_nat (size (Folder.files_ f))).
Proof.
  intros Hall.
  assert (heap with_aaa !! 1 = Some (Folder_new "//aaa" (Some 0))) as Hp
    by (vm_compute; reflexivity).
  destruct (Hall with_aaa 1 _ reachable_with_aaa Hp) as [Hfolders _].
  vm_compute in Hfolders. discriminate Hfolders.
Qed.

(** C5, amended: in every reachable state, for every folder in the heap,
    the file count equals the number of entries of the file map, and the
    folder count equals the number of entries of the folder map, less one
    when the folder has a parent: the [".."] entry that the constructor
    puts there is not counted. *)
Theorem counts_match_maps (s : state) (p : addr) (f : Folder.t) :
  reachable s → heap s !! p = Some f → counts_ok f.
Proof. intros Hreach Hp. by eapply reachable_invariant. Qed.

Lemma counts_match_maps_witness : counts_ok (Folder_new "//aaa" (Some 0)).
Proof.
  apply (counts_match_maps with_aaa 1).
  - apply (reachable_step (CreateFolder "aaa") initial); [apply reachable_initial|].
    vm_compute. reflexivity.
  - vm_compute. reflexivity.
Defined.

(** ** The bound of the destructor *)

Lemma walk_NoFuel (names : list string) :
  ∀ p s, walk names p s ≠ NoFuel.
Proof.
  induction names as [|name names IH]; intros p s; [done|].
  cbn [walk]. run.
Qed.

(** From a reachable state no operation runs out of the bound given to
    the destructor. *)
Lemma reachable_never_exhausted (m : mutation) (s : state) :
  reachable s → perform m s ≠ OutOfFuel.
Proof.
  intros [[Hb Ho] _]%reachable_invariant.
  destruct m as [d r|n|n c|n c|n|n]; cbn [perform].
  - unfold changeDirectory, try_catch_runtime_error.
    destruct (String.eqb _ _); [done|].
    unfold call, bind, ret, set_current.
    destruct (splitFilePath d) as [names|[]]; [|done..].
    pose proof (walk_NoFuel names (if r then currentDirPointer_ s else rootFolder s) s).
    by destruct (walk names _ s) as [? ?|[] ?| |].
  - unfold createFolder, try_catch_invalid_argument, throwIfNameInvalid, addFolder.
    run.
  - unfold createFile, try_catch_invalid_argument, throwIfNameInvalid, addFile.
    run.
  - unfold updateFile, try_catch_invalid_argument, throwIfNameInvalid.
    run.
  - unfold deleteFolder, try_catch_invalid_argument, throwIfNameInvalid, removeFolder.
    run.
    match goal with
    | H : destroy _ ?c _ = Exhausted |- _ =>
        apply (destroy_total _ c _ _ Hb Ho) in H; [done | lia]
    end.
  - unfold deleteFile, try_catch_invalid_argument, throwIfNameInvalid, removeFile.
    run.
Qed.

(** ** The driver's run *)

(** [createFolder("ccc")] then [deleteFolder("ccc")], the last two calls of
    the driver: the root is as it was, one address has been used up. *)
Example driver_create_delete :
  deleteFolder "ccc" (after (createFolder "ccc" initial) initial)
  = Done tt (mkState (heap initial) 2 0 0 "/").
Proof. vm_compute. reflexivity. Qed.

(** [changeDirectory("aaa/bbb", false)] and [changeDirectory("../..", true)]
    of the driver: the manager is back on the root, and its current-path
    string is the argument of the last call. *)
Example driver_there_and_back :
  let s := after (createFolder "bbb" in_aaa) in_aaa in
  let s := after (changeDirectory "aaa/bbb" false s) s in
  let s := after (changeDirectory "../.." true s) s in
  currentDirPointer_ s = rootFolder s ∧ currentDirPath_ s = "../..".
Proof. vm_compute. done. Qed.

(** Deleting [".."] from inside ["aaa"] deletes the root, whose destructor
    deletes ["aaa"] itself; the manager then erases an entry of a folder
    that is gone. *)
Example deleteFolder_up_is_undefined : deleteFolder up in_aaa = Undefined.
Proof. vm_compute. reflexivity. Qed.

(** * Further properties of the code *)

(** ** The path utility, continued *)

(** X1: for a name whose size fits an [int] (fewer than [2^31]
    characters), [getFileExtension] returns a run of dots, as long as the
    suffix of the name after its last dot; its length is right, its
    characters are not. *)
Theorem getFileExtension_is_dots (fileName : string) :
  (Z.of_nat (String.length fileName) ≤ INT_MAX)%Z →
  ∃ extension,
    getFileExtension fileName = Some extension ∧
    extension = dots (String.length (extension_of fileName)) ∧
    String.length extension = String.length (extension_of fileName).
Proof.
  intros Hfits.
  assert (∀ n, String.length (dots n) = n) as Hlen.
  { induction n as [|n IH]; [done|]. cbn [dots String.length]. by rewrite IH. }
  eexists. split; [by apply getFileExtension_dots|]. split; [done | apply Hlen].
Qed.

Lemma getFileExtension_is_dots_witness :
  ∃ extension,
    getFileExtension "archive.tar.gz" = Some extension ∧
    extension = dots (String.length (extension_of "archive.tar.gz")) ∧
    String.length extension = String.length (extension_of "archive.tar.gz").
Proof.
  apply (getFileExtension_is_dots "archive.tar.gz"). vm_compute. discriminate.
Defined.

(** The segment in progress takes in a whole name that is free of
    separators. *)
Lemma splitLoop_name (name : string) :
  contains_sep name = false →
  ∀ rest curSplit,
    splitLoop (name +:+ rest) curSplit = splitLoop rest (curSplit +:+ name).
Proof.
  induction name as [|c name IH]; intros Hname rest cur.
  - by rewrite append_nil_l, append_nil_r.
  - cbn [contains_sep] in Hname. apply orb_false_iff in Hname as [Hc Hname].
    rewrite append_cons, splitLoop_cons_other, (IH Hname) by done.
    unfold push_back. by rewrite append_assoc, append_cons, append_nil_l.
Qed.

Lemma splitLoop_join (names : list string) :
  (∀ n, n ∈ names → n ≠ "" ∧ contains_sep n = false) →
  names ≠ [] →
  splitLoop (join names) "" = Ret names.
Proof.
  induction names as [|n names IH]; intros Hvalid Hne; [done|].
  destruct (Hvalid n ltac:(by left)) as [Hn Hsep].
  destruct names as [|m names].
  - cbn [join]. transitivity (splitLoop (n +:+ "") ""); [by rewrite append_nil_r|].
    rewrite splitLoop_name by done. by rewrite append_nil_l.
  - change (join (n :: m :: names)) with (n +:+ "/" +:+ join (m :: names)).
    rewrite splitLoop_name, append_nil_l by done.
    assert (∀ x, x ∈ m :: names → x ≠ "" ∧ contains_sep x = false) as Hrest.
    { intros x Hx. apply Hvalid. by right. }
    destruct (Hrest m ltac:(by left)) as [Hm Hmsep].
    assert (∃ c r, join (m :: names) = String c r ∧ Ascii.eqb c sep = false)
      as (c & r & Hjoin & Hc).
    { destruct m as [|c m']; [done|]. cbn [contains_sep] in Hmsep.
      apply orb_false_iff in Hmsep as [Hc _].
      destruct names; cbn [join]; rewrite ?append_cons; eauto. }
    specialize (IH Hrest ltac:(done)). rewrite Hjoin in *.
    change ("/" +:+ String c r) with (String sep (String c r)).
    rewrite splitLoop_cons_cons. change (Ascii.eqb sep sep) with true.
    cbn match. rewrite Hc, IH. done.
Qed.

Lemma splitFilePath_of_join (names : list string) :
  (∀ n, n ∈ names → n ≠ "" ∧ contains_sep n = false) →
  splitFilePath (join names) = Ret names.
Proof.
  intros Hvalid. destruct names as [|n names]; [done|].
  pose proof (splitLoop_join (n :: names) Hvalid ltac:(done)) as Hloop.
  destruct (Hvalid n ltac:(by left)) as [Hn Hsep].
  destruct (join (n :: names)) as [|c r] eqn:Hjoin.
  { destruct n; [done|]. destruct names; cbn [join] in Hjoin; done. }
  unfold splitFilePath.
  assert (Ascii.eqb c sep = false) as ->; [|done].
  destruct n as [|c' n']; [done|]. cbn [contains_sep] in Hsep.
  apply orb_false_iff in Hsep as [Hc _].
  destruct names; cbn [join] in Hjoin; rewrite ?append_cons in Hjoin;
    by injection Hjoin as <- _.
Qed.

(** X2: joining valid names with separators and splitting the result
    gives the names back. *)
Theorem splitFilePath_join (names : list string) :
  (∀ n, n ∈ names → n ≠ "" ∧ contains_sep n = false) →
  splitFilePath (join names) = Ret names.
Proof. apply splitFilePath_of_join. Qed.

Lemma splitFilePath_join_witness :
  splitFilePath (join ["aaa"; "bbb"; ".."]) = Ret ["aaa"; "bbb"; ".."].
Proof.
  apply (splitFilePath_join ["aaa"; "bbb"; ".."]).
  intros n Hn. repeat (apply elem_of_cons in Hn as [-> | Hn]; [by split|]).
  by apply not_elem_of_nil in Hn.
Defined.

(** X3: the segments that [splitFilePath] returns are free of
    separators, and joined with separators they give the path back, less
    one trailing separator. *)
Theorem splitFilePath_join_back (p : string) (names : list string) :
  splitFilePath p = Ret names →
  join names = strip_trailing_sep p ∧ ∀ n, n ∈ names → contains_sep n = false.
Proof.
  rewrite splitFilePath_cases.
  destruct (begins_with_sep p); [done|]. destruct (has_adjacent_seps p); [done|].
  intros [= <-]. split; [apply segments_join|].
  intros n Hn. destruct p as [|c r]; [by apply not_elem_of_nil in Hn|].
  by eapply pieces_sep_free.
Qed.

Lemma splitFilePath_join_back_witness :
  join ["aaa"; "bbb"] = strip_trailing_sep "aaa/bbb/" ∧
  ∀ n, n ∈ ["aaa"; "bbb"] → contains_sep n = false.
Proof. exact (splitFilePath_join_back "aaa/bbb/" ["aaa"; "bbb"] eq_refl). Defined.

(** ** Files *)

Lemma createFile_Done (name content : string) (s s' : state) :
  createFile name content s = Done tt s' →
  ∃ cur extension,
    getFileExtension name = Some extension ∧
    contains_sep name = false ∧
    heap s !! currentDirPointer_ s = Some cur ∧
    Folder.files_ cur !! name = None ∧
    Folder.filesCount_ (Folder.metadata_ cur) ≠ INT_MAX ∧
    s' = mkState
           (<[currentDirPointer_ s :=
                with_files cur (Folder.filesCount_ (Folder.metadata_ cur) + 1)
                  (<[name := File_new (currentDirPath_ s +:+ "/" +:+ name)
                               extension content]>
                     (Folder.files_ cur))]> (heap s))
           (next_addr s) (rootFolder s) (currentDirPointer_ s) (currentDirPath_ s).
Proof.
  unfold createFile, try_catch_invalid_argument, throwIfNameInvalid, addFile, count.
  intros Hrun. revert Hrun. run. intros [= <-].
  eexists _, _. split; [reflexivity|]. split; [done|]. split; [eassumption|].
  split; [done|]. split; [by apply Z.eqb_neq | done].
Qed.

Lemma updateFile_Done (name content : string) (s s' : state) :
  updateFile name content s = Done tt s' →
  ∃ cur old,
    contains_sep name = false ∧
    heap s !! currentDirPointer_ s = Some cur ∧
    Folder.files_ cur !! name = Some old ∧
    s' = mkState
           (<[currentDirPointer_ s :=
                with_files cur (Folder.filesCount_ (Folder.metadata_ cur))
                  (<[name := updateContent content old]> (Folder.files_ cur))]> (heap s))
           (next_addr s) (rootFolder s) (currentDirPointer_ s) (currentDirPath_ s).
Proof.
  unfold updateFile, try_catch_invalid_argument, throwIfNameInvalid.
  intros Hrun. revert Hrun. run. intros [= <-].
  eexists _, _. split; [done|]. split; [eassumption|]. split; [eassumption | done].
Qed.

Lemma deleteFile_Done (name : string) (s s' : state) :
  deleteFile name s = Done tt s' →
  ∃ cur old,
    contains_sep name = false ∧
    heap s !! currentDirPointer_ s = Some cur ∧
    Folder.files_ cur !! name = Some old ∧
    Folder.filesCount_ (Folder.metadata_ cur) ≠ INT_MIN ∧
    s' = mkState
           (<[currentDirPointer_ s :=
                with_files cur (Folder.filesCount_ (Folder.metadata_ cur) - 1)
                  (delete name (Folder.files_ cur))]> (heap s))
           (next_addr s) (rootFolder s) (currentDirPointer_ s) (currentDirPath_ s).
Proof.
  unfold deleteFile, try_catch_invalid_argument, throwIfNameInvalid, removeFile, count.
  intros Hrun. revert Hrun. run. intros [= <-].
  eexists _, _. split; [done|]. split; [eassumption|]. split; [eassumption|].
  split; [by apply Z.eqb_neq | done].
Qed.

(** Reading a file of a live current folder under a valid name. *)
Lemma printFileContents_found (name : string) (s : state) (cur : Folder.t)
    (file : File.t) :
  contains_sep name = false →
  heap s !! currentDirPointer_ s = Some cur →
  Folder.files_ cur !! name = Some file →
  printFileContents name s = Done file s.
Proof.
  intros Hsep Hcur Hfile.
  unfold printFileContents, try_catch_invalid_argument, throwIfNameInvalid.
  unfold_monad. by rewrite Hsep, Hcur, Hfile.
Qed.

(** X4: a file that [createFile] has made reads back through
    [printFileContents] with the content given, the size of that content,
    the path [currentDirPath_ + "/" + fileName] and the extension that
    [getFileExtension] computes. *)
Theorem createFile_then_read (name content : string) (s s' : state) :
  createFile name content s = Done tt s' →
  ∃ file,
    printFileContents name s' = Done file s' ∧
    File.content_ file = content ∧
    File.fileSize_ (File.metadata_ file) = String.length content ∧
    File.fullPath_ (File.metadata_ file) = currentDirPath_ s +:+ "/" +:+ name ∧
    getFileExtension name = Some (File.fileExtension_ (File.metadata_ file)).
Proof.
  intros (cur & ext & Hext & Hsep & Hcur & Hfree & Hmax & ->)%createFile_Done.
  exists (File_new (currentDirPath_ s +:+ "/" +:+ name) ext content).
  split; [|done].
  eapply printFileContents_found; [done | apply lookup_insert_eq |].
  apply lookup_insert_eq.
Qed.

Lemma createFile_then_read_witness :
  createFile "yoyo" "huhu" initial
    = Done tt (after (createFile "yoyo" "huhu" initial) initial) ∧
  ∃ file,
    printFileContents "yoyo" (after (createFile "yoyo" "huhu" initial) initial)
      = Done file (after (createFile "yoyo" "huhu" initial) initial) ∧
    File.content_ file = "huhu" ∧
    File.fileSize_ (File.metadata_ file) = String.length "huhu" ∧
    File.fullPath_ (File.metadata_ file) = currentDirPath_ initial +:+ "/" +:+ "yoyo" ∧
    getFileExtension "yoyo" = Some (File.fileExtension_ (File.metadata_ file)).
Proof.
  assert (createFile "yoyo" "huhu" initial
          = Done tt (after (createFile "yoyo" "huhu" initial) initial)) as Hrun
    by (vm_compute; reflexivity).
  split; [exact Hrun|].
  exact (createFile_then_read "yoyo" "huhu" initial _ Hrun).
Defined.

(** X5: a successful [updateFile] replaces the content of the file and
    its size, keeps its path and extension, and leaves every other file of
    the current folder, and the file count, as they were. *)
Theorem updateFile_replaces_content (name content : string) (s s' : state) :
  updateFile name content s = Done tt s' →
  ∃ old new cur cur',
    child_file name s = Some old ∧
    child_file name s' = Some new ∧
    File.content_ new = content ∧
    File.fileSize_ (File.metadata_ new) = String.length content ∧
    File.fullPath_ (File.metadata_ new) = File.fullPath_ (File.metadata_ old) ∧
    File.fileExtension_ (File.metadata_ new)
      = File.fileExtension_ (File.metadata_ old) ∧
    (∀ other, other ≠ name → child_file other s' = child_file other s) ∧
    heap s !! currentDirPointer_ s = Some cur ∧
    heap s' !! currentDirPointer_ s' = Some cur' ∧
    Folder.filesCount_ (Folder.metadata_ cur')
      = Folder.filesCount_ (Folder.metadata_ cur).
Proof.
  intros (cur & old & Hsep & Hcur & Hold & ->)%updateFile_Done.
  unfold child_file. cbn [heap currentDirPointer_]. rewrite Hcur, lookup_insert_eq.
  cbn [mbind option_bind with_files Folder.files_].
  eexists old, _, cur, _. split; [done|]. split; [apply lookup_insert_eq|].
  repeat (split; [done|]). split; [|done].
  intros other Hother. by rewrite lookup_insert_ne.
Qed.

Lemma updateFile_replaces_content_witness :
  ∃ s s' : state,
    updateFile "yoyo" "huuuuuuuuuuuuuuuuuuuuu" s = Done tt s' ∧
    ∃ new, child_file "yoyo" s' = Some new ∧
           File.fileSize_ (File.metadata_ new) = 22.
Proof.
  exists (after (createFile "yoyo" "huhu" initial) initial).
  eexists. 
  assert (updateFile "yoyo" "huuuuuuuuuuuuuuuuuuuuu"
            (after (createFile "yoyo" "huhu" initial) initial)
          = Done tt (after (updateFile "yoyo" "huuuuuuuuuuuuuuuuuuuuu"
                              (after (createFile "yoyo" "huhu" initial) initial)) initial))
    as Hrun by (vm_compute; reflexivity).
  split; [exact Hrun|].
  destruct (updateFile_replaces_content _ _ _ _ Hrun)
    as (old & new & cur & cur' & _ & Hnew & _ & Hsize & _).
  exists new. split; [exact Hnew | exact Hsize].
Defined.

Lemma with_files_same (f : Folder.t) :
  with_files f (Folder.filesCount_ (Folder.metadata_ f)) (Folder.files_ f) = f.
Proof. by destruct f as [[] ? ? ?]. Qed.

(** A deletion that passes both tests, in one step. *)
Lemma deleteFile_run (name : string) (s : state) (cur : Folder.t) (old : File.t) :
  contains_sep name = false →
  heap s !! currentDirPointer_ s = Some cur →
  Folder.files_ cur !! name = Some old →
  Folder.filesCount_ (Folder.metadata_ cur) ≠ INT_MIN →
  deleteFile name s
  = Done tt
      (mkState
         (<[currentDirPointer_ s :=
              with_files cur (Folder.filesCount_ (Folder.metadata_ cur) - 1)
                (delete name (Folder.files_ cur))]> (heap s))
         (next_addr s) (rootFolder s) (currentDirPointer_ s) (currentDirPath_ s)).
Proof.
  intros Hsep Hcur Hold Hmin. apply Z.eqb_neq in Hmin.
  unfold deleteFile, try_catch_invalid_argument, throwIfNameInvalid, removeFile, count.
  unfold_monad. rewrite Hsep, Hcur. cbn. rewrite Hold. cbn. rewrite Hcur, Hmin, Hcur. done.
Qed.

(** X6: from a reachable state, [createFile] followed by [deleteFile] of
    the same name gives back the state before the two calls, counters
    included. *)
Theorem createFile_then_deleteFile (name content : string) (s s' : state) :
  reachable s →
  createFile name content s = Done tt s' → deleteFile name s' = Done tt s.
Proof.
  intros [_ Hcounts]%reachable_invariant.
  intros (cur & ext & Hext & Hsep & Hcur & Hfree & Hmax & ->)%createFile_Done.
  destruct (Hcounts _ _ Hcur) as [Hfiles _].
  erewrite deleteFile_run; [|done|apply lookup_insert_eq|apply lookup_insert_eq|].
  - destruct s as [h n r p path], cur as [[fc flc fp] parent folders files].
    cbn in *. rewrite insert_insert_eq, delete_insert_eq, delete_id by done.
    replace (flc + 1 - 1)%Z with flc by lia. by rewrite insert_id.
  - cbn [with_files Folder.metadata_ Folder.filesCount_]. unfold INT_MIN, INT_MAX in *.
    lia.
Qed.

Lemma createFile_then_deleteFile_witness :
  createFile "yoyo" "huhu" initial
    = Done tt (after (createFile "yoyo" "huhu" initial) initial) ∧
  deleteFile "yoyo" (after (createFile "yoyo" "huhu" initial) initial)
    = Done tt initial.
Proof.
  assert (createFile "yoyo" "huhu" initial
          = Done tt (after (createFile "yoyo" "huhu" initial) initial)) as Hrun
    by (vm_compute; reflexivity).
  split; [exact Hrun|].
  exact (createFile_then_deleteFile "yoyo" "huhu" initial _ reachable_initial Hrun).
Defined.

(** ** Folders *)

(** The operations, run forward along their successful path. *)
Lemma changeDirectory_run (d : string) (r : bool) (s : state)
    (names : list string) (p : addr) :
  currentDirPath_ s ≠ d →
  splitFilePath d = Ret names →
  walk names (if r then currentDirPointer_ s else rootFolder s) s = Val p s →
  changeDirectory d r s
  = Done tt (mkState (heap s) (next_addr s) (rootFolder s) p d).
Proof.
  intros Hpath%string_eqb_false Hsplit Hwalk.
  unfold changeDirectory, try_catch_runtime_error. rewrite Hpath.
  unfold bind at 1. rewrite Hsplit. unfold call, ret, bind. by rewrite Hwalk.
Qed.

Lemma deleteFolder_run (name : string) (s : state) (cur cur' : Folder.t)
    (child : addr) (h : gmap addr Folder.t) :
  contains_sep name = false →
  heap s !! currentDirPointer_ s = Some cur →
  Folder.folders_ cur !! name = Some child →
  destroy (next_addr s) child (heap s) = Freed h →
  h !! currentDirPointer_ s = Some cur' →
  Folder.foldersCount_ (Folder.metadata_ cur') ≠ INT_MIN →
  deleteFolder name s
  = Done tt
      (mkState
         (<[currentDirPointer_ s :=
              with_folders cur' (Folder.foldersCount_ (Folder.metadata_ cur') - 1)
                (delete name (Folder.folders_ cur'))]> h)
         (next_addr s) (rootFolder s) (currentDirPointer_ s) (currentDirPath_ s)).
Proof.
  intros Hsep Hcur Hchild Hdestroy Hcur' Hmin. apply Z.eqb_neq in Hmin.
  unfold deleteFolder, try_catch_invalid_argument, throwIfNameInvalid,
    removeFolder, count.
  unfold_monad. rewrite Hsep, Hcur. cbn. rewrite Hchild. cbn.
  rewrite Hcur, Hchild, Hdestroy. cbn. rewrite Hcur', Hmin. cbn. by rewrite Hcur'.
Qed.

(** The destructor's loop over entries that are all named [".."]. *)
Lemma destroy_loop_only_up del (h : gmap addr Folder.t)
    (entries : list (string * addr)) :
  (∀ name c, (name, c) ∈ entries → name = up) →
  foldl (destroy_entry del) (Freed h) entries = Freed h.
Proof.
  induction entries as [|[name c] entries IH]; intros Hup; [done|].
  cbn [foldl destroy_entry fst snd].
  rewrite (Hup name c) by (by left). change (String.eqb up up) with true.
  apply IH. intros name' c' Hel. apply (Hup name' c'). by right.
Qed.

(** Deleting a folder that holds nothing but its [".."] entry. *)
Lemma destroy_leaf (fuel : nat) (p : addr) (h : gmap addr Folder.t) (f : Folder.t) :
  h !! p = Some f →
  (∀ name c, Folder.folders_ f !! name = Some c → name = up) →
  destroy (S fuel) p h = Freed (delete p h).
Proof.
  intros Hp Hup. cbn [destroy]. rewrite Hp, destroy_loop_only_up, Hp; [done|].
  intros name c Hel%elem_of_map_to_list. by eapply Hup.
Qed.

(** X7: a second [createFolder], or [createFile], of the same name throws
    [std::runtime_error] to the caller and leaves the state of after the
    first call untouched: the name is bound, and counted, once. *)
Theorem create_twice (name content : string) (s s' : state) :
  (createFolder name s = Done tt s' →
   createFolder name s' = Escaped (runtime_error "Folder already exists") s') ∧
  (createFile name content s = Done tt s' →
   createFile name content s' = Escaped (runtime_error "File already exists") s').
Proof.
  split.
  - intros (cur & cur' & Hsep & Hcur & Hfree & Hcur' & Hmax & ->)%createFolder_Done.
    eapply (existence_failure_escapes name "" _ _ Hsep).
    + apply lookup_insert_eq.
    + cbn [with_folders Folder.folders_]. rewrite lookup_insert_eq. eauto.
  - intros (cur & ext & Hext & Hsep & Hcur & Hfree & Hmax & ->)%createFile_Done.
    eapply (existence_failure_escapes name content _ _ Hsep).
    + apply lookup_insert_eq.
    + cbn [with_files Folder.files_]. rewrite lookup_insert_eq. eauto.
Qed.

Lemma create_twice_witness :
  createFolder "aaa" with_aaa
    = Escaped (runtime_error "Folder already exists") with_aaa ∧
  createFile "yoyo" "huhu" (after (createFile "yoyo" "huhu" initial) initial)
    = Escaped (runtime_error "File already exists")
        (after (createFile "yoyo" "huhu" initial) initial).
Proof.
  split.
  - apply (proj1 (create_twice "aaa" "" initial with_aaa)). vm_compute. reflexivity.
  - apply (proj2 (create_twice "yoyo" "huhu" initial _)). vm_compute. reflexivity.
Defined.

(** X8: from a reachable state, [createFolder] followed by
    [deleteFolder] of the same name gives back the folder heap, the root
    and the cursor of before; one address has been used up. *)
Theorem createFolder_then_deleteFolder (name : string) (s s' : state) :
  reachable s →
  createFolder name s = Done tt s' →
  deleteFolder name s'
  = Done tt (mkState (heap s) (S (next_addr s)) (rootFolder s)
               (currentDirPointer_ s) (currentDirPath_ s)).
Proof.
  intros [[Hb _] Hcounts]%reachable_invariant.
  intros (cur & cur' & Hsep & Hcur & Hfree & Hcur' & Hmax & ->)%createFolder_Done.
  assert (currentDirPointer_ s < next_addr s) as Hlt by (by eapply Hb).
  assert (heap s !! next_addr s = None) as Hfresh.
  { destruct (heap s !! next_addr s) eqn:Hn; [|done]. apply Hb in Hn. lia. }
  rewrite lookup_insert_ne in Hcur' by lia.
  assert (cur' = cur) as -> by congruence. clear Hcur'.
  destruct (Hcounts _ _ Hcur) as [_ Hfolders].
  erewrite deleteFolder_run; cbn [heap next_addr currentDirPointer_]; [|done|..].
  2: { apply lookup_insert_eq. }
  2: { cbn [with_folders Folder.folders_]. apply lookup_insert_eq. }
  2: { eapply destroy_leaf.
       - rewrite lookup_insert_ne, lookup_insert_eq by lia. done.
       - intros n c Hn. cbn [Folder_new Folder.folders_] in Hn.
         by apply lookup_singleton_Some in Hn as [<- _]. }
  2: { rewrite lookup_delete_ne, lookup_insert_eq by lia. done. }
  - cbn [rootFolder currentDirPath_]. f_equal. f_equal.
    destruct cur as [[fc flc fp] parent folders files]. cbn in *.
    replace (fc + 1 - 1)%Z with fc by lia.
    rewrite delete_insert_eq, (delete_id folders) by done.
    apply map_eq. intros i.
    destruct (decide (i = currentDirPointer_ s)) as [->|Hi].
    { by rewrite lookup_insert_eq. }
    rewrite lookup_insert_ne by done.
    destruct (decide (i = next_addr s)) as [->|Hi'].
    { by rewrite lookup_delete_eq. }
    by rewrite lookup_delete_ne, lookup_insert_ne, lookup_insert_ne.
  - cbn [with_folders Folder.metadata_ Folder.foldersCount_].
    unfold INT_MIN. destruct (Folder.parentFolder_ cur); lia.
Qed.

Lemma createFolder_then_deleteFolder_witness :
  createFolder "ccc" initial = Done tt (after (createFolder "ccc" initial) initial) ∧
  deleteFolder "ccc" (after (createFolder "ccc" initial) initial)
  = Done tt (mkState (heap initial) (S (next_addr initial)) (rootFolder initial)
               (currentDirPointer_ initial) (currentDirPath_ initial)).
Proof.
  assert (createFolder "ccc" initial
          = Done tt (after (createFolder "ccc" initial) initial)) as Hrun
    by (vm_compute; reflexivity).
  split; [exact Hrun|].
  exact (createFolder_then_deleteFolder "ccc" initial _ reachable_initial Hrun).
Defined.

(** ** Navigation *)

Lemma splitFilePath_name (name : string) :
  name ≠ "" → contains_sep name = false → splitFilePath name = Ret [name].
Proof.
  intros Hne Hsep. apply (splitFilePath_of_join [name]).
  intros n ->%list_elem_of_singleton. done.
Qed.

(** X9: from a reachable state, after [createFolder] of a non-empty name
    other than [".."] and other than the current-path string,
    [changeDirectory(name, true)] enters the new folder, and
    [changeDirectory("..", true)] from there comes back to the folder the
    manager stood on; the current-path string is then [".."]. *)
Theorem enter_and_come_back (name : string) (s s1 : state) :
  reachable s →
  createFolder name s = Done tt s1 →
  name ≠ "" → name ≠ up → currentDirPath_ s ≠ name →
  ∃ s2,
    changeDirectory name true s1 = Done tt s2 ∧
    heap s !! currentDirPointer_ s2 = None ∧
    is_Some (heap s2 !! currentDirPointer_ s2) ∧
    changeDirectory up true s2
    = Done tt (mkState (heap s1) (next_addr s1) (rootFolder s1)
                 (currentDirPointer_ s) up).
Proof.
  intros [[Hb _] _]%reachable_invariant.
  intros (cur & cur' & Hsep & Hcur & Hfree & Hcur' & Hmax & ->)%createFolder_Done.
  intros Hne Hup Hpath.
  eexists (mkState _ _ _ (next_addr s) name).
  assert (currentDirPointer_ s < next_addr s) as Hlt by (by eapply Hb).
  assert (heap s !! next_addr s = None) as Hfresh.
  { destruct (heap s !! next_addr s) eqn:Hn; [|done]. apply Hb in Hn. lia. }
  cbn [heap next_addr rootFolder currentDirPointer_].
  split; [|split; [done|split]].
  - erewrite changeDirectory_run;
      [reflexivity | done | by apply splitFilePath_name |].
    cbn [walk]. unfold_monad. cbn [heap currentDirPointer_].
    rewrite lookup_insert_eq. cbn [with_folders Folder.folders_].
    by rewrite lookup_insert_eq.
  - cbn [heap currentDirPointer_].
    rewrite lookup_insert_ne, lookup_insert_eq by lia. eauto.
  - erewrite changeDirectory_run; [reflexivity | done | reflexivity |].
    cbn [walk]. unfold_monad. cbn [heap currentDirPointer_].
    rewrite lookup_insert_ne, lookup_insert_eq by lia.
    cbn [Folder_new Folder.folders_]. by rewrite lookup_singleton_eq.
Qed.

Lemma enter_and_come_back_witness :
  changeDirectory "aaa" true with_aaa = Done tt in_aaa ∧
  changeDirectory up true in_aaa = Done tt back_at_root ∧
  currentDirPointer_ back_at_root = currentDirPointer_ initial.
Proof.
  assert (createFolder "aaa" initial = Done tt with_aaa) as Hrun
    by (vm_compute; reflexivity).
  destruct (enter_and_come_back "aaa" initial with_aaa reachable_initial Hrun
              ltac:(discriminate) ltac:(discriminate) ltac:(discriminate))
    as (s2 & Henter & _ & _ & Hback).
  assert (s2 = in_aaa) as ->.
  { assert (changeDirectory "aaa" true with_aaa = Done tt in_aaa) as Hin
      by (vm_compute; reflexivity).
    congruence. }
  split; [exact Henter|]. split; [|reflexivity].
  rewrite Hback. vm_compute. reflexivity.
Defined.

(** The exceptions of [splitFilePath] are [std::runtime_error]s. *)
Lemma splitFilePath_Throw (p : string) (e : exception) :
  splitFilePath p = Throw e → e = preceding_error ∨ e = adjacent_error.
Proof.
  rewrite splitFilePath_cases.
  destruct (begins_with_sep p); [intros [= <-]; auto|].
  destruct (has_adjacent_seps p); [intros [= <-]; auto | done].
Qed.

(** X10: [changeDirectory] catches every exception it raises, nothing
    leaves it; and whether it succeeds or reports a failure, the folder
    heap and the root are as before: navigation never writes to the tree. *)
Theorem changeDirectory_never_throws (d : string) (r : bool) (s : state) :
  (∀ e s', changeDirectory d r s ≠ Escaped e s') ∧
  changeDirectory d r s ≠ Terminated ∧
  ∀ s', returns (changeDirectory d r s) = Some s' →
        heap s' = heap s ∧ rootFolder s' = rootFolder s.
Proof.
  assert (∀ e s', changeDirectory d r s ≠ Escaped e s') as Hesc.
  { intros e s'. unfold changeDirectory, try_catch_runtime_error.
    destruct (String.eqb _ _); [done|].
    unfold bind at 1, call.
    destruct (splitFilePath d) as [names|e0] eqn:Hsplit.
    - unfold ret, bind, set_current.
      destruct (walk names _ s) as [p s0|e0 s0| |] eqn:Hwalk; try done.
      apply walk_Exc in Hwalk as [_ ->]. done.
    - apply splitFilePath_Throw in Hsplit as [-> | ->]; done. }
  split; [exact Hesc|]. split.
  - unfold changeDirectory, try_catch_runtime_error.
    destruct (String.eqb _ _); [done|].
    match goal with
    | |- context [match ?body with Val _ _ => _ | _ => _ end] =>
        by destruct body as [? ?|[] ?| |]
    end.
  - intros s' [Hdone | Hfail]%returns_Done_or_failure.
    + by apply changeDirectory_Done in Hdone as [-> | [p ->]].
    + by apply (failure_keeps_state (ChangeDirectory d r)) in Hfail as ->.
Qed.

(** X11: a destination that begins with the separator, or holds two
    adjacent ones, and is not the current-path string itself, is reported
    with the message of [splitFilePath], not with the message of a missing
    folder; no folder is looked at, and nothing changes. *)
Theorem changeDirectory_malformed (d : string) (r : bool) (s : state) :
  begins_with_sep d || has_adjacent_seps d = true →
  currentDirPath_ s ≠ d →
  ∃ what,
    (runtime_error what = preceding_error ∨ runtime_error what = adjacent_error) ∧
    what ≠ "Destination folder can't be found" ∧
    changeDirectory d r s = Reported ("Couldn't change directory: " +:+ what) s.
Proof.
  intros Hbad Hpath%string_eqb_false.
  unfold changeDirectory, try_catch_runtime_error. rewrite Hpath.
  unfold bind at 1, call. rewrite splitFilePath_cases.
  destruct (begins_with_sep d); [|destruct (has_adjacent_seps d); [|done]];
    (eexists; split; [|split]; [| |reflexivity]; [auto | done]).
Qed.

Lemma changeDirectory_malformed_witness :
  ∃ what,
    what ≠ "Destination folder can't be found" ∧
    changeDirectory "/aaa" false with_aaa
    = Reported ("Couldn't change directory: " +:+ what) with_aaa.
Proof.
  destruct (changeDirectory_malformed "/aaa" false with_aaa eq_refl)
    as (what & _ & Hwhat & Hrun); [discriminate|].
  exists what. split; [exact Hwhat | exact Hrun].
Defined.

(** X12: an empty destination, when the current-path string is not
    empty, always succeeds without looking at any folder: relative, the
    manager stays on its folder; absolute, it moves to the root; either
    way the current-path string becomes empty. *)
Theorem changeDirectory_empty (r : bool) (s : state) :
  currentDirPath_ s ≠ "" →
  changeDirectory "" r s
  = Done tt (mkState (heap s) (next_addr s) (rootFolder s)
               (if r then currentDirPointer_ s else rootFolder s) "").
Proof. intros Hpath. by apply (changeDirectory_run "" r s []). Qed.

Lemma changeDirectory_empty_witness :
  changeDirectory "" false in_aaa
  = Done tt (mkState (heap in_aaa) (next_addr in_aaa) (rootFolder in_aaa)
               (rootFolder in_aaa) "").
Proof. apply (changeDirectory_empty false in_aaa). discriminate. Defined.

(** ** Paths compose *)

Lemma pieces_append (a q : string) :
  pieces (a +:+ "/" +:+ q) = pieces a ++ pieces q.
Proof.
  induction a as [|c r IH]; [done|].
  rewrite append_cons. cbn [pieces]. rewrite IH.
  destruct (Ascii.eqb c sep); [done|].
  generalize (pieces_not_nil r). by destruct (pieces r).
Qed.

Lemma strip_trailing_sep_append (a b : string) :
  b ≠ "" → strip_trailing_sep (a +:+ "/" +:+ b) = a +:+ "/" +:+ strip_trailing_sep b.
Proof.
  intros Hb. induction a as [|c r IH].
  - rewrite !append_nil_l. destruct b; [done|]. reflexivity.
  - change (String c r +:+ "/" +:+ b) with (String c (r +:+ "/" +:+ b)).
    change (String c r +:+ "/" +:+ strip_trailing_sep b)
      with (String c (r +:+ "/" +:+ strip_trailing_sep b)).
    destruct (r +:+ "/" +:+ b) as [|c' q] eqn:Hq; [by destruct r|].
    change (strip_trailing_sep (String c (String c' q)))
      with (String c (strip_trailing_sep (String c' q))).
    by rewrite IH.
Qed.

Lemma has_adjacent_seps_append (a b : string) :
  a ≠ "" → ends_with_sep a = false → begins_with_sep b = false →
  has_adjacent_seps (a +:+ "/" +:+ b) = has_adjacent_seps a || has_adjacent_seps b.
Proof.
  intros Ha Hend Hbeg. induction a as [|c r IH]; [done|].
  rewrite append_cons, !has_adjacent_seps_cons.
  destruct r as [|c' r'].
  - cbn [ends_with_sep] in Hend. rewrite append_nil_l, Hend.
    change ("/" +:+ b) with (String sep b).
    rewrite has_adjacent_seps_cons, Hbeg. done.
  - rewrite IH by done. rewrite begins_with_sep_append by done.
    by rewrite orb_assoc.
Qed.

Lemma splitFilePath_Ret (p : string) (names : list string) :
  splitFilePath p = Ret names →
  begins_with_sep p = false ∧ has_adjacent_seps p = false ∧ names = segments p.
Proof.
  rewrite splitFilePath_cases.
  destruct (begins_with_sep p); [done|]. destruct (has_adjacent_seps p); [done|].
  by intros [= <-].
Qed.

Lemma splitFilePath_of_append (a b : string) (na nb : list string) :
  splitFilePath a = Ret na → splitFilePath b = Ret nb →
  a ≠ "" → b ≠ "" → ends_with_sep a = false →
  splitFilePath (a +:+ "/" +:+ b) = Ret (na ++ nb).
Proof.
  intros (Hba & Haa & ->)%splitFilePath_Ret (Hbb & Hab & ->)%splitFilePath_Ret.
  intros Ha Hb Hend.
  rewrite splitFilePath_cases, begins_with_sep_append, Hba by done.
  rewrite has_adjacent_seps_append, Haa, Hab by done. cbn [orb].
  f_equal. destruct a as [|ca ra]; [done|]. destruct b as [|cb rb]; [done|].
  unfold segments. rewrite append_cons.
  rewrite <- append_cons, strip_trailing_sep_append, pieces_append by done.
  by rewrite (strip_trailing_sep_id (String ca ra)).
Qed.

(** X13: for valid non-empty paths [a] and [b], [a] not ending with the
    separator, the segments of [a + "/" + b] are the segments of [a]
    followed by the segments of [b]. *)
Theorem splitFilePath_append (a b : string) (na nb : list string) :
  splitFilePath a = Ret na → splitFilePath b = Ret nb →
  a ≠ "" → b ≠ "" → ends_with_sep a = false →
  splitFilePath (a +:+ "/" +:+ b) = Ret (na ++ nb).
Proof. apply splitFilePath_of_append. Qed.

Lemma splitFilePath_append_witness :
  splitFilePath ("aaa/bbb" +:+ "/" +:+ "../ccc") = Ret (["aaa"; "bbb"] ++ [".."; "ccc"]).
Proof.
  apply (splitFilePath_append "aaa/bbb" "../ccc");
    [reflexivity | reflexivity | discriminate | discriminate | reflexivity].
Defined.

(** [walk] reads the heap and nothing else of the state. *)
Lemma walk_same_heap (names : list string) :
  ∀ p q s t, heap s = heap t → walk names p s = Val q s → walk names p t = Val q t.
Proof.
  induction names as [|name names IH]; intros p q s t Hheap Hwalk.
  - cbn [walk] in *. unfold ret in *. congruence.
  - cbn [walk] in *. unfold bind, deref in *. rewrite <- Hheap.
    destruct (heap s !! p) as [f|]; [|done].
    destruct (Folder.folders_ f !! name) as [c|]; [|done].
    by eapply IH.
Qed.

Lemma walk_app (names1 names2 : list string) :
  ∀ p q1 q2 s,
    walk names1 p s = Val q1 s → walk names2 q1 s = Val q2 s →
    walk (names1 ++ names2) p s = Val q2 s.
Proof.
  induction names1 as [|name names1 IH]; intros p q1 q2 s Hw1 Hw2.
  - cbn [walk] in Hw1. unfold ret in Hw1. by injection Hw1 as ->.
  - cbn [app walk] in *. unfold bind, deref in *.
    destruct (heap s !! p) as [f|]; [|done].
    destruct (Folder.folders_ f !! name) as [c|]; [|done].
    by eapply IH.
Qed.

Lemma changeDirectory_Done_walk (d : string) (r : bool) (s s' : state) :
  currentDirPath_ s ≠ d →
  changeDirectory d r s = Done tt s' →
  ∃ names p,
    splitFilePath d = Ret names ∧
    walk names (if r then currentDirPointer_ s else rootFolder s) s = Val p s ∧
    s' = mkState (heap s) (next_addr s) (rootFolder s) p d.
Proof.
  intros Hpath%string_eqb_false.
  unfold changeDirectory, try_catch_runtime_error. rewrite Hpath.
  unfold bind at 1, call.
  destruct (splitFilePath d) as [names|e]; [|by destruct e].
  unfold ret, bind, set_current.
  destruct (walk names _ s) as [p s0|e s0| |] eqn:Hwalk; try done; [|by destruct e].
  apply walk_Val in Hwalk as Hs0. subst s0. intros [= <-]. eauto.
Qed.

(** X14: going to [a] and from there, relatively, to [b] ends on the same
    folder as going to [a + "/" + b] in one call, when none of the three
    calls is the fast path ([a] is not the current-path string, [b] is not
    [a], the joined path is not the current-path string), [a] and [b] are
    not empty and [a] does not end with the separator. *)
Theorem changeDirectory_composes (a b : string) (r : bool) (s s1 s2 : state) :
  changeDirectory a r s = Done tt s1 →
  changeDirectory b true s1 = Done tt s2 →
  currentDirPath_ s ≠ a → a ≠ b → currentDirPath_ s ≠ a +:+ "/" +:+ b →
  a ≠ "" → b ≠ "" → ends_with_sep a = false →
  changeDirectory (a +:+ "/" +:+ b) r s
  = Done tt (mkState (heap s) (next_addr s) (rootFolder s)
               (currentDirPointer_ s2) (a +:+ "/" +:+ b)).
Proof.
  intros Hrun1 Hrun2 Hpa Hab Hpab Ha Hb Hend.
  apply changeDirectory_Done_walk in Hrun1 as (na & p & Hsa & Hwa & ->); [|done].
  apply changeDirectory_Done_walk in Hrun2 as (nb & q & Hsb & Hwb & ->); [|done].
  cbn [currentDirPointer_ heap next_addr rootFolder] in *.
  apply (changeDirectory_run _ r s (na ++ nb)); [done | |].
  - by apply splitFilePath_of_append.
  - eapply walk_app; [exact Hwa|].
    eapply (walk_same_heap nb p q _ s); [|exact Hwb]. done.
Qed.

Lemma changeDirectory_composes_witness :
  ∃ s s1 s2,
    changeDirectory "aaa" false s = Done tt s1 ∧
    changeDirectory "bbb" true s1 = Done tt s2 ∧
    changeDirectory ("aaa" +:+ "/" +:+ "bbb") false s
    = Done tt (mkState (heap s) (next_addr s) (rootFolder s)
                 (currentDirPointer_ s2) ("aaa" +:+ "/" +:+ "bbb")).
Proof.
  pose (s := after (changeDirectory ".." true (after (createFolder "bbb" in_aaa) in_aaa))
               initial).
  exists s. eexists. eexists.
  assert (changeDirectory "aaa" false s
          = Done tt (after (changeDirectory "aaa" false s) s)) as H1
    by (vm_compute; reflexivity).
  assert (changeDirectory "bbb" true (after (changeDirectory "aaa" false s) s)
          = Done tt (after (changeDirectory "bbb" true
                              (after (changeDirectory "aaa" false s) s)) s)) as H2
    by (vm_compute; reflexivity).
  split; [exact H1|]. split; [exact H2|].
  apply (changeDirectory_composes "aaa" "bbb" false s _ _ H1 H2);
    [discriminate | discriminate | discriminate | discriminate | discriminate
    | reflexivity].
Defined.

(** ** What one successful call does to the heap *)

(** After a successful call from a reachable state, a folder of the heap
    is a folder of before, untouched, or the current folder rewritten in
    one of the five ways, or the one folder that [createFolder] has just
    allocated. *)
Lemma step_shape (m : mutation) (s s' : state) :
  reachable s →
  perform m s = Done tt s' →
  ∀ p f',
    heap s' !! p = Some f' →
    heap s !! p = Some f' ∨
    (p = currentDirPointer_ s ∧
     ∃ cur, heap s !! currentDirPointer_ s = Some cur ∧ rewrites s cur f') ∨
    (p = next_addr s ∧ heap s !! p = None ∧
     ∃ path, f' = Folder_new path (Some (currentDirPointer_ s))).
Proof.
  intros [[Hb _] _]%reachable_invariant Hrun p f' Hp.
  destruct m as [d r|n|n c|n c|n|n]; cbn [perform] in Hrun.
  - apply changeDirectory_Done in Hrun as [-> | [q ->]]; auto.
  - apply createFolder_Done in Hrun
      as (cur & cur' & Hsep & Hcur & Hfree & Hcur' & _ & ->).
    assert (currentDirPointer_ s < next_addr s) as Hlt by (by eapply Hb).
    assert (heap s !! next_addr s = None) as Hfresh.
    { destruct (heap s !! next_addr s) eqn:Hn; [|done]. apply Hb in Hn. lia. }
    rewrite lookup_insert_ne in Hcur' by lia.
    assert (cur' = cur) as -> by congruence.
    cbn [heap] in Hp.
    apply lookup_insert_Some in Hp
      as [[<- <-] | [_ [[<- <-] | [_ Hp]]%lookup_insert_Some]]; [| |by left].
    + right. left. split; [done|]. exists cur. split; [done|]. by constructor.
    + right. right. eauto.
  - apply createFile_Done in Hrun as (cur & ext & Hext & Hsep & Hcur & Hfree & _ & ->).
    cbn [heap] in Hp. apply lookup_insert_Some in Hp as [[<- <-] | [_ Hp]]; [|by left].
    right. left. split; [done|]. exists cur. split; [done|]. by constructor.
  - apply updateFile_Done in Hrun as (cur & old & Hsep & Hcur & Hold & ->).
    cbn [heap] in Hp. apply lookup_insert_Some in Hp as [[<- <-] | [_ Hp]]; [|by left].
    right. left. split; [done|]. exists cur. split; [done|]. by econstructor.
  - apply deleteFolder_Done in Hrun
      as (cur & child & h & cur' & Hcur & Hchild & Hdestroy & Hcur' & ->).
    apply destroy_subseteq in Hdestroy as Hsub.
    assert (cur' = cur) as ->.
    { eapply lookup_weaken in Hcur'; [|exact Hsub]. congruence. }
    cbn [heap] in Hp. apply lookup_insert_Some in Hp as [[<- <-] | [_ Hp]].
    + right. left. split; [done|]. exists cur. split; [done|]. by econstructor.
    + left. by eapply lookup_weaken.
  - apply deleteFile_Done in Hrun as (cur & old & Hsep & Hcur & Hold & _ & ->).
    cbn [heap] in Hp. apply lookup_insert_Some in Hp as [[<- <-] | [_ Hp]]; [|by left].
    right. left. split; [done|]. exists cur. split; [done|]. by econstructor.
Qed.

(** A property of folders that the root has when made, that every new
    folder has, and that the five rewritings keep, holds of every folder of
    every reachable state. *)
Lemma reachable_folders (P : Folder.t → Prop) :
  P (Folder_new "/" None) →
  (∀ path p, P (Folder_new path (Some p))) →
  (∀ s cur cur', rewrites s cur cur' → P cur → P cur') →
  ∀ s, reachable s → ∀ p f, heap s !! p = Some f → P f.
Proof.
  intros Hroot Hnew Hrewrites s Hreach.
  induction Hreach as [|m s s' Hreach IH Hret]; intros p f Hp.
  - unfold initial in Hp. cbn [heap] in Hp.
    by apply lookup_singleton_Some in Hp as [_ <-].
  - apply returns_Done_or_failure in Hret as [Hdone | Hfail].
    + destruct (step_shape m s s' Hreach Hdone p f Hp)
        as [Hold | [(-> & cur & Hcur & Hrw) | (-> & _ & path & ->)]].
      * by eapply IH.
      * eapply Hrewrites; [exact Hrw|]. by eapply IH.
      * apply Hnew.
    + apply failure_keeps_state in Hfail as ->. by eapply IH.
Qed.

(** ** Invariants of files and names *)

Lemma files_ok_rewrites (s : state) (cur cur' : Folder.t) :
  rewrites s cur cur' → files_ok cur → files_ok cur'.
Proof.
  intros Hrw Hok name file.
  destruct Hrw as [n Hsep Hfree|n c Hc|n content Hsep Hfree|n content old Hold|n old Hold];
    cbn [with_folders with_files Folder.files_]; try apply Hok.
  - intros [[<- <-] | [_ Hfile]]%lookup_insert_Some; [|by apply Hok].
    split; [done|]. split; [done|]. by eexists.
  - intros [[<- <-] | [_ Hfile]]%lookup_insert_Some; [|by apply Hok].
    destruct (Hok _ _ Hold) as (_ & Hext & Hpath). done.
  - intros [_ Hfile]%lookup_delete_Some. by apply Hok.
Qed.

(** X15: in every reachable state, every file of every folder carries
    the size of its content, the extension that [getFileExtension] gives
    for the name it is bound to, and a path that ends with the separator
    and that name. *)
Theorem file_metadata_invariant (s : state) (p : addr) (f : Folder.t)
    (name : string) (file : File.t) :
  reachable s → heap s !! p = Some f → Folder.files_ f !! name = Some file →
  File.fileSize_ (File.metadata_ file) = String.length (File.content_ file) ∧
  getFileExtension name = Some (File.fileExtension_ (File.metadata_ file)) ∧
  ∃ path, File.fullPath_ (File.metadata_ file) = path +:+ "/" +:+ name.
Proof.
  intros Hreach Hp Hfile.
  eapply (reachable_folders files_ok); eauto using files_ok_rewrites; done.
Qed.

Lemma names_ok_rewrites (s : state) (cur cur' : Folder.t) :
  rewrites s cur cur' → names_ok cur → names_ok cur'.
Proof.
  intros Hrw [Hfolders Hfiles].
  destruct Hrw as [n|n c|n content|n content old|n old]; split;
    cbn [with_folders with_files Folder.files_ Folder.folders_];
    try apply Hfolders; try apply Hfiles; intros name x.
  - intros [[<- _] | [_ Hname]]%lookup_insert_Some; [done | by eapply Hfolders].
  - intros [_ Hname]%lookup_delete_Some. by eapply Hfolders.
  - intros [[<- _] | [_ Hname]]%lookup_insert_Some; [done | by eapply Hfiles].
  - intros [[<- _] | [_ Hname]]%lookup_insert_Some; by eapply Hfiles.
  - intros [_ Hname]%lookup_delete_Some. by eapply Hfiles.
Qed.

Lemma file_metadata_invariant_witness :
  File.fileSize_ (File.metadata_ (File_new "//yoyo" "" "huhu"))
    = String.length (File.content_ (File_new "//yoyo" "" "huhu")) ∧
  getFileExtension "yoyo"
    = Some (File.fileExtension_ (File.metadata_ (File_new "//yoyo" "" "huhu"))) ∧
  ∃ path, File.fullPath_ (File.metadata_ (File_new "//yoyo" "" "huhu"))
          = path +:+ "/" +:+ "yoyo".
Proof.
  apply (file_metadata_invariant (after (createFile "yoyo" "huhu" initial) initial)
           0 (with_files (Folder_new "/" None) 1
                {[ "yoyo" := File_new "//yoyo" "" "huhu" ]})).
  - apply (reachable_step (CreateFile "yoyo" "huhu") initial);
      [apply reachable_initial|]. vm_compute. reflexivity.
  - vm_compute. reflexivity.
  - vm_compute. reflexivity.
Defined.

(** X16: in every reachable state, no name bound in a folder, to a
    folder or to a file, contains the separator. *)
Theorem names_invariant (s : state) (p : addr) (f : Folder.t) (name : string) :
  reachable s → heap s !! p = Some f →
  is_Some (Folder.folders_ f !! name) ∨ is_Some (Folder.files_ f !! name) →
  contains_sep name = false.
Proof.
  intros Hreach Hp Hname.
  assert (names_ok f) as [Hfolders Hfiles].
  { eapply (reachable_folders names_ok); eauto using names_ok_rewrites.
    - split; intros n x Hn; cbn in Hn; by rewrite lookup_empty in Hn.
    - intros path q. split; intros n x Hn; cbn in Hn.
      + by apply lookup_singleton_Some in Hn as [<- _].
      + by rewrite lookup_empty in Hn. }
  destruct Hname as [[c Hc] | [file Hfile]]; eauto.
Qed.

Lemma names_invariant_witness : contains_sep "aaa" = false.
Proof.
  apply (names_invariant with_aaa 0
           (with_folders (Folder_new "/" None) 1 {[ "aaa" := 1 ]}) "aaa").
  - apply (reachable_step (CreateFolder "aaa") initial); [apply reachable_initial|].
    vm_compute. reflexivity.
  - vm_compute. reflexivity.
  - left. vm_compute. eauto.
Defined.

(** ** Folders keep their identity *)

Lemma rewrites_identity (s : state) (cur cur' : Folder.t) :
  rewrites s cur cur' →
  Folder.fullPath_ (Folder.metadata_ cur') = Folder.fullPath_ (Folder.metadata_ cur) ∧
  Folder.parentFolder_ cur' = Folder.parentFolder_ cur.
Proof. by destruct 1. Qed.

Lemma step_identity (m : mutation) (s s' : state) (p : addr) (f f' : Folder.t) :
  reachable s → returns (perform m s) = Some s' →
  heap s !! p = Some f → heap s' !! p = Some f' →
  Folder.fullPath_ (Folder.metadata_ f') = Folder.fullPath_ (Folder.metadata_ f) ∧
  Folder.parentFolder_ f' = Folder.parentFolder_ f.
Proof.
  intros Hreach [Hdone | Hfail]%returns_Done_or_failure Hp Hp'.
  - destruct (step_shape m s s' Hreach Hdone p f' Hp')
      as [Hold | [(-> & cur & Hcur & Hrw) | (-> & Hnone & _)]].
    + by assert (f' = f) as -> by congruence.
    + assert (cur = f) as -> by congruence. by eapply rewrites_identity.
    + congruence.
  - apply failure_keeps_state in Hfail as ->.
    by assert (f' = f) as -> by congruence.
Qed.

(** X17: the full path and the parent pointer of a folder are fixed when
    it is made: across any call that comes back to the caller, from a
    reachable state, a folder that is in the heap before and after has the
    same path and the same parent. *)
Theorem folder_identity_is_fixed (m : mutation) (s s' : state) (p : addr)
    (f f' : Folder.t) :
  reachable s → returns (perform m s) = Some s' →
  heap s !! p = Some f → heap s' !! p = Some f' →
  Folder.fullPath_ (Folder.metadata_ f') = Folder.fullPath_ (Folder.metadata_ f) ∧
  Folder.parentFolder_ f' = Folder.parentFolder_ f.
Proof. apply step_identity. Qed.

Lemma folder_identity_is_fixed_witness :
  ∃ f f',
    heap with_aaa !! 1 = Some f ∧
    heap (after (createFolder "bbb" in_aaa) in_aaa) !! 1 = Some f' ∧
    Folder.foldersCount_ (Folder.metadata_ f')
      ≠ Folder.foldersCount_ (Folder.metadata_ f) ∧
    Folder.fullPath_ (Folder.metadata_ f') = Folder.fullPath_ (Folder.metadata_ f).
Proof.
  eexists _, _.
  assert (heap in_aaa !! 1 = Some (Folder_new "//aaa" (Some 0))) as Hp
    by (vm_compute; reflexivity).
  assert (heap (after (createFolder "bbb" in_aaa) in_aaa) !! 1
          = Some (with_folders (Folder_new "//aaa" (Some 0)) 1
                    (<["bbb" := 2]> {[ up := 0 ]}))) as Hp'
    by (vm_compute; reflexivity).
  split; [vm_compute; reflexivity|]. split; [exact Hp'|]. split; [done|].
  apply (folder_identity_is_fixed (CreateFolder "bbb") in_aaa _ 1 _ _
           reachable_in_aaa ltac:(vm_compute; reflexivity) Hp Hp').
Defined.

(** What a call that comes back leaves of the storage and the allocator:
    the root pointer is the same, the allocation counter has not gone
    down. *)
Lemma step_root_next (m : mutation) (s s' : state) :
  returns (perform m s) = Some s' →
  rootFolder s' = rootFolder s ∧ next_addr s ≤ next_addr s'.
Proof.
  intros [Hdone | Hfail]%returns_Done_or_failure.
  - destruct m as [d r|n|n c|n c|n|n]; cbn [perform] in Hdone.
    + by apply changeDirectory_Done in Hdone as [-> | [q ->]].
    + apply createFolder_Done in Hdone as (? & ? & _ & _ & _ & _ & _ & ->).
      cbn. split; [done | lia].
    + by apply createFile_Done in Hdone as (? & ? & _ & _ & _ & _ & _ & ->).
    + by apply updateFile_Done in Hdone as (? & ? & _ & _ & _ & ->).
    + by apply deleteFolder_Done in Hdone as (? & ? & ? & ? & _ & _ & _ & _ & ->).
    + by apply deleteFile_Done in Hdone as (? & ? & _ & _ & _ & _ & ->).
  - by apply failure_keeps_state in Hfail as ->.
Qed.

Lemma reachable_root_next (s : state) :
  reachable s → rootFolder s = 0 ∧ 0 < next_addr s.
Proof.
  induction 1 as [|m s s' Hreach [IHroot IHnext] Hret]; [cbn; lia|].
  apply step_root_next in Hret as [-> Hle]. lia.
Qed.

Lemma reachable_root (s : state) :
  reachable s →
  ∀ f, heap s !! rootFolder s = Some f →
       Folder.fullPath_ (Folder.metadata_ f) = "/" ∧ Folder.parentFolder_ f = None.
Proof.
  induction 1 as [|m s s' Hreach IH Hret]; intros f' Hf'.
  - unfold initial in Hf'. cbn in Hf'.
    by apply lookup_singleton_Some in Hf' as [_ <-].
  - pose proof (step_root_next _ _ _ Hret) as [Hroot _]. rewrite Hroot in Hf'.
    destruct (reachable_root_next s Hreach) as [Hzero Hpos].
    destruct (heap s !! rootFolder s) as [f|] eqn:Hf.
    + destruct (step_identity m s s' _ f f' Hreach Hret Hf Hf') as [-> ->].
      by apply IH.
    + apply returns_Done_or_failure in Hret as [Hdone | Hfail].
      * destruct (step_shape m s s' Hreach Hdone _ f' Hf')
          as [Hold | [(Heq & cur & Hcur & Hrw) | (Heq & _ & _)]].
        -- congruence.
        -- rewrite <- Heq in Hcur. congruence.
        -- lia.
      * apply failure_keeps_state in Hfail as ->. congruence.
Qed.



(** ** What the destructor frees *)

Lemma destroy_frees_self (fuel : nat) (p : addr) (h h' : gmap addr Folder.t) :
  destroy fuel p h = Freed h' → h' !! p = None.
Proof.
  destruct fuel as [|fuel]; cbn [destroy]; destruct (h !! p); try done.
  destruct (foldl _ _ _) as [h1| |]; [|done..].
  destruct (h1 !! p); [|done]. intros [= <-]. apply lookup_delete_eq.
Qed.

Lemma lookup_subseteq_None (h' h : gmap addr Folder.t) (q : addr) :
  h' ⊆ h → h !! q = None → h' !! q = None.
Proof.
  intros Hsub Hq. destruct (h' !! q) eqn:Hq'; [|done].
  eapply lookup_weaken in Hq'; [|exact Hsub]. congruence.
Qed.

Lemma destroy_loop_frees del :
  (∀ p h h', del p h = Freed h' → h' ⊆ h ∧ h' !! p = None) →
  ∀ entries acc h',
    foldl (destroy_entry del) acc entries = Freed h' →
    ∀ name c, (name, c) ∈ entries → name ≠ up → h' !! c = None.
Proof.
  intros Hdel. induction entries as [|entry entries IH];
    intros acc h' Hloop name c Hel Hname.
  { by apply not_elem_of_nil in Hel. }
  cbn [foldl] in Hloop. apply elem_of_cons in Hel as [<- | Hel]; [|by eapply IH].
  apply destroy_loop_subseteq in Hloop as (h1 & Hentry & Hsub);
    [|intros ? ? ? ?; by eapply Hdel].
  apply destroy_entry_Freed in Hentry as (h0 & -> & [[? _] | [_ Hrec]]); [done|].
  cbn [snd] in Hrec. apply Hdel in Hrec as [_ Hfreed].
  by eapply lookup_subseteq_None.
Qed.

Lemma destroy_loop_closed_down del :
  (∀ p h h', del p h = Freed h' → h' ⊆ h ∧ closed_down h h') →
  ∀ entries h0 h1,
    foldl (destroy_entry del) (Freed h0) entries = Freed h1 → closed_down h0 h1.
Proof.
  intros Hdel. induction entries as [|entry entries IH]; intros h0 h1 Hloop.
  { cbn [foldl] in Hloop. injection Hloop as <-. intros q g Hq Hq'. congruence. }
  cbn [foldl] in Hloop.
  pose proof Hloop as (h0' & Hentry & Hsub)%destroy_loop_subseteq;
    [|intros ? ? ? ?; by eapply Hdel].
  rewrite Hentry in Hloop. apply IH in Hloop.
  apply destroy_entry_Freed in Hentry as (h00 & [= <-] & [[_ ->] | [_ Hrec]]);
    [done|].
  apply Hdel in Hrec as [Hsub0 Hclosed0].
  intros q g Hq Hq' name c Hc Hname.
  destruct (h0' !! q) as [g'|] eqn:Hq0.
  - assert (g' = g) as ->.
    { eapply lookup_weaken in Hq0; [|exact Hsub0]. congruence. }
    by eapply Hloop.
  - eapply lookup_subseteq_None; [exact Hsub|]. by eapply Hclosed0.
Qed.

Lemma destroy_closed_down (fuel : nat) :
  ∀ p h h', destroy fuel p h = Freed h' → closed_down h h'.
Proof.
  induction fuel as [|fuel IH]; intros p h h' Hdestroy.
  { cbn [destroy] in Hdestroy. by destruct (h !! p). }
  cbn [destroy] in Hdestroy.
  destruct (h !! p) as [f|] eqn:Hp; [|done].
  destruct (foldl _ _ _) as [h1| |] eqn:Hloop; [|done..].
  destruct (h1 !! p) eqn:Hp1; [|done]. injection Hdestroy as <-.
  assert (∀ p h h', destroy fuel p h = Freed h' → h' ⊆ h ∧ closed_down h h') as Hdel.
  { intros. split; [by eapply destroy_subseteq | by eapply IH]. }
  pose proof (destroy_loop_closed_down _ Hdel _ _ _ Hloop) as Hclosed.
  intros q g Hq Hq' name c Hc Hname.
  destruct (decide (q = p)) as [->|Hne].
  - assert (g = f) as -> by congruence.
    apply lookup_delete_None. right.
    eapply (destroy_loop_frees (destroy fuel)); [| exact Hloop | | exact Hname].
    + intros. split; [by eapply destroy_subseteq | by eapply destroy_frees_self].
    + by apply elem_of_map_to_list.
  - rewrite lookup_delete_ne in Hq' by done.
    apply lookup_delete_None. right. by eapply Hclosed.
Qed.

(** X19: [delete] of a folder takes the folder out of the heap, with every
    folder it holds under a name other than [".."], and the folders those
    hold in turn; a folder that stays in the heap stays as it was. *)
Theorem destroy_frees (fuel : nat) (p : addr) (h h' : gmap addr Folder.t) :
  destroy fuel p h = Freed h' →
  h' !! p = None ∧
  (∀ q g name c,
     h !! q = Some g → h' !! q = None →
     Folder.folders_ g !! name = Some c → name ≠ up → h' !! c = None) ∧
  (∀ q g, h' !! q = Some g → h !! q = Some g).
Proof.
  intros Hdestroy. split; [by eapply destroy_frees_self|]. split.
  - intros q g name c Hq Hq' Hc Hname.
    by eapply (destroy_closed_down fuel p h h' Hdestroy q g).
  - intros q g Hq. eapply lookup_weaken; [exact Hq | by eapply destroy_subseteq].
Qed.

Lemma destroy_frees_witness :
  ∃ h', destroy (next_addr (after (createFolder "bbb" in_aaa) in_aaa)) 1
          (heap (after (createFolder "bbb" in_aaa) in_aaa)) = Freed h' ∧
        h' !! 1 = None ∧ h' !! 2 = None ∧ is_Some (h' !! 0).
Proof.
  eexists.
  assert (destroy (next_addr (after (createFolder "bbb" in_aaa) in_aaa)) 1
            (heap (after (createFolder "bbb" in_aaa) in_aaa))
          = Freed {[ 0 := with_folders (Folder_new "/" None) 1 {[ "aaa" := 1 ]} ]})
    as Hdestroy by (vm_compute; reflexivity).
  split; [exact Hdestroy|].
  destruct (destroy_frees _ _ _ _ Hdestroy) as (Hself & Hdown & _).
  split; [exact Hself|]. split; [|vm_compute; eauto].
  apply (Hdown 1 (with_folders (Folder_new "//aaa" (Some 0)) 1
                    (<["bbb" := 2]> {[ up := 0 ]})) "bbb" 2);
    [vm_compute; reflexivity | exact Hself | vm_compute; reflexivity | discriminate].
Defined.

(** X20: a successful [deleteFolder] unbinds the name in the current
    folder and takes the folder it named out of the heap; the other
    entries and the files of the current folder stay, its folder count goes
    down by one, the cursor does not move, and every other folder left in
    the heap is as it was. *)
Theorem deleteFolder_effect (name : string) (s s' : state) :
  deleteFolder name s = Done tt s' →
  ∃ cur cur' child,
    heap s !! currentDirPointer_ s = Some cur ∧
    Folder.folders_ cur !! name = Some child ∧
    heap s' !! currentDirPointer_ s = Some cur' ∧
    currentDirPointer_ s' = currentDirPointer_ s ∧
    currentDirPath_ s' = currentDirPath_ s ∧
    heap s' !! child = None ∧
    Folder.folders_ cur' = delete name (Folder.folders_ cur) ∧
    Folder.files_ cur' = Folder.files_ cur ∧
    Folder.foldersCount_ (Folder.metadata_ cur')
      = (Folder.foldersCount_ (Folder.metadata_ cur) - 1)%Z ∧
    ∀ q g, q ≠ currentDirPointer_ s → heap s' !! q = Some g → heap s !! q = Some g.
Proof.
  intros (cur & child & h & cur' & Hcur & Hchild & Hdestroy & Hcur' & ->)
    %deleteFolder_Done.
  apply destroy_subseteq in Hdestroy as Hsub.
  apply destroy_frees_self in Hdestroy as Hfreed.
  assert (cur' = cur) as ->.
  { eapply lookup_weaken in Hcur'; [|exact Hsub]. congruence. }
  assert (child ≠ currentDirPointer_ s) as Hne by congruence.
  eexists cur, _, child. cbn [heap currentDirPointer_ currentDirPath_].
  split; [done|]. split; [done|]. split; [apply lookup_insert_eq|].
  split; [done|]. split; [done|]. split; [by rewrite lookup_insert_ne|].
  split; [done|]. split; [done|]. split; [done|].
  intros q g Hq Hg. rewrite lookup_insert_ne in Hg by done.
  by eapply lookup_weaken.
Qed.

Lemma deleteFolder_effect_witness :
  ∃ cur', heap (after (deleteFolder "aaa" back_at_root) back_at_root) !! 0 = Some cur' ∧
          Folder.folders_ cur' !! "aaa" = None ∧
          Folder.foldersCount_ (Folder.metadata_ cur') = 0%Z.
Proof.
  assert (deleteFolder "aaa" back_at_root
          = Done tt (after (deleteFolder "aaa" back_at_root) back_at_root)) as Hrun
    by (vm_compute; reflexivity).
  destruct (deleteFolder_effect _ _ _ Hrun)
    as (cur & cur' & child & Hcur & Hchild & Hcur' & _ & _ & _ & Hfolders & _ & Hcount & _).
  exists cur'. split; [exact Hcur'|]. split.
  - rewrite Hfolders. apply lookup_delete_eq.
  - rewrite Hcount.
    assert (cur = with_folders (Folder_new "/" None) 1 {[ "aaa" := 1 ]}) as ->.
    { assert (heap back_at_root !! currentDirPointer_ back_at_root
              = Some (with_folders (Folder_new "/" None) 1 {[ "aaa" := 1 ]}))
        by (vm_compute; reflexivity).
      congruence. }
    reflexivity.
Defined.

(** ** The destructor on a tree *)

Lemma children_distinct_subseteq (h0 h : gmap addr Folder.t) :
  h0 ⊆ h → children_distinct h → children_distinct h0.
Proof.
  intros Hsub Hd p f n1 n2 c Hp. eapply Hd, lookup_weaken; eauto.
Qed.

(** The loop of the destructor of the folder [f] at [p], over the entries
    still to visit: every folder missing from the heap so far lies above
    [p] and is a child of [f] already visited, or has lost its parent. *)
Lemma destroy_loop_safe del (h : gmap addr Folder.t) (p : addr) (f : Folder.t) :
  ordered h → children_live_above h p → children_distinct h →
  (∀ (c : addr) h0 g, p < c → h0 ⊆ h → h0 !! c = Some g → children_live_above h0 c →
             ∃ h1, del c h0 = Freed h1 ∧ h1 ⊆ h0 ∧ freed_from h0 h1 c) →
  ∀ entries,
    NoDup entries.*1 →
    (∀ name c, (name, c) ∈ entries → Folder.folders_ f !! name = Some c) →
    ∀ h0,
      h0 ⊆ h → h !! p = Some f → h0 !! p = Some f →
      (∀ (q : addr) g, h !! q = Some g → h0 !! q = None →
              p < q ∧
              ((∃ name, name ≠ up ∧ Folder.folders_ f !! name = Some q ∧
                        name ∉ entries.*1) ∨
               (∃ pq, Folder.parentFolder_ g = Some pq ∧ h0 !! pq = None))) →
      ∃ h1,
        foldl (destroy_entry del) (Freed h0) entries = Freed h1 ∧
        h1 ⊆ h ∧ h1 !! p = Some f ∧
        ∀ (q : addr) g, h !! q = Some g → h1 !! q = None →
               p < q ∧
               ((∃ name, name ≠ up ∧ Folder.folders_ f !! name = Some q) ∨
                (∃ pq, Folder.parentFolder_ g = Some pq ∧ h1 !! pq = None)).
Proof.
  intros Ho Hlive Hdist Hdel.
  induction entries as [|[name c] entries IH];
    intros Hnodup Hentries h0 Hsub Hp Hp0 Hgone.
  { exists h0. split; [done|]. split; [done|]. split; [done|].
    intros q g Hq Hq0. destruct (Hgone q g Hq Hq0) as [Hlt [(n & ? & ? & _) | ?]];
      eauto. }
  cbn [fmap list_fmap fst] in Hnodup. apply NoDup_cons in Hnodup as [Hfresh Hnodup].
  assert (Folder.folders_ f !! name = Some c) as Hc by (apply Hentries; by left).
  assert (∀ n x, (n, x) ∈ entries → Folder.folders_ f !! n = Some x) as Hrest.
  { intros n x Hel. apply Hentries. by right. }
  cbn [foldl destroy_entry fst snd].
  destruct (String.eqb name up) eqn:Hname.
  - apply (IH Hnodup Hrest h0 Hsub Hp Hp0).
    intros q g Hq Hq0.
    destruct (Hgone q g Hq Hq0) as [Hlt [(n & Hn & Hfn & Hnotin) | Hparent]];
      (split; [done|]); [left | by right].
    exists n. split; [done|]. split; [done|]. intros Hin. apply Hnotin.
    cbn [fmap list_fmap fst]. by right.
  - apply String.eqb_neq in Hname.
    destruct (Hlive p f name c ltac:(lia) Hp Hname Hc) as (g & Hcg & Hcparent).
    assert (p < c) as Hpc by (by eapply Ho).
    assert (h0 !! c = Some g) as Hc0.
    { destruct (h0 !! c) as [g0|] eqn:Hc0.
      - eapply lookup_weaken in Hc0; [|exact Hsub]. congruence.
      - destruct (Hgone c g Hcg Hc0) as [_ [(n & Hn & Hfn & Hnotin) | (pq & Hpq & Hpq0)]].
        + assert (n = name) as -> by (by eapply (Hdist p f n name c)).
          exfalso. apply Hnotin. cbn [fmap list_fmap fst]. by left.
        + congruence. }
    assert (children_live_above h0 c) as Hlive0.
    { intros q fq n x Hq Hfq Hn Hx.
      assert (h !! q = Some fq) as Hfqh by (by eapply lookup_weaken).
      destruct (Hlive q fq n x ltac:(lia) Hfqh Hn Hx) as (gx & Hgx & Hxparent).
      exists gx. split; [|done].
      destruct (h0 !! x) as [g0|] eqn:Hx0.
      - eapply lookup_weaken in Hx0; [|exact Hsub]. congruence.
      - destruct (Hgone x gx Hgx Hx0)
          as [_ [(n' & Hn' & Hfn' & _) | (pq & Hpq & Hpq0)]].
        + destruct (Hlive p f n' x ltac:(lia) Hp Hn' Hfn') as (gx' & Hgx' & Hp').
          assert (q = p) by congruence. lia.
        + congruence. }
    destruct (Hdel c h0 g Hpc Hsub Hc0 Hlive0) as (h0' & -> & Hsub0 & Hfreed0).
    apply (IH Hnodup Hrest h0'); [by etrans | done | |].
    + destruct (h0' !! p) as [f0|] eqn:Hp0'.
      * eapply lookup_weaken in Hp0'; [|exact Hsub0]. congruence.
      * destruct (Hfreed0 p f Hp0 Hp0') as [Hle _]. lia.
    + intros q gq Hq Hq0'.
      destruct (h0 !! q) as [gq0|] eqn:Hq0.
      * assert (gq0 = gq) as ->.
        { eapply lookup_weaken in Hq0; [|exact Hsub]. congruence. }
        destruct (Hfreed0 q gq Hq0 Hq0') as [Hle [-> | Hparent]].
        -- split; [done|]. left. exists name. done.
        -- split; [lia | by right].
      * destruct (Hgone q gq Hq Hq0) as [Hlt [(n & Hn & Hfn & Hnotin) | (pq & Hpq & Hpq0)]];
          (split; [done|]).
        -- left. exists n. split; [done|]. split; [done|]. intros Hin.
           apply Hnotin. cbn [fmap list_fmap fst]. by right.
        -- right. exists pq. split; [done|]. by eapply lookup_subseteq_None.
Qed.

(** On a heap whose folders from [p] on have their children in place,
    [delete] of the folder at [p] succeeds, and frees only that folder and
    folders whose parent it frees. *)
Lemma destroy_safe (fuel : nat) :
  ∀ (p : addr) h n f,
    bounded h n → ordered h → n ≤ fuel + p → h !! p = Some f →
    children_live_above h p → children_distinct h →
    ∃ h', destroy fuel p h = Freed h' ∧ h' ⊆ h ∧ freed_from h h' p.
Proof.
  induction fuel as [|fuel IH]; intros p h n f Hb Ho Hfuel Hp Hlive Hdist.
  { apply Hb in Hp. lia. }
  cbn [destroy]. rewrite Hp.
  destruct (destroy_loop_safe (destroy fuel) h p f Ho Hlive Hdist)
    with (entries := map_to_list (Folder.folders_ f)) (h0 := h)
    as (h1 & -> & Hsub1 & Hp1 & Hgone); try done.
  - intros c h0 g Hpc Hsub Hc Hlive0.
    apply (IH c h0 n g); [by eapply bounded_subseteq | by eapply ordered_subseteq
                         | lia | done | done | by eapply children_distinct_subseteq].
  - apply NoDup_fst_map_to_list.
  - intros name c Hel. by apply elem_of_map_to_list.
  - intros q g Hq Hq'. congruence.
  - rewrite Hp1. eexists. split; [done|]. split.
    { etrans; [apply delete_subseteq | done]. }
    intros q g Hq Hq'. destruct (decide (q = p)) as [->|Hne]; [split; [lia | by left]|].
    rewrite lookup_delete_ne in Hq' by done.
    destruct (Hgone q g Hq Hq') as [Hlt [(name & Hname & Hfn) | (pq & Hpq & Hpq1)]];
      (split; [lia|]); right.
    + destruct (Hlive p f name q ltac:(lia) Hp Hname Hfn) as (g' & Hg' & Hparent).
      exists p. split; [congruence | apply lookup_delete_eq].
    + exists pq. split; [done|]. apply lookup_delete_None. by right.
Qed.

(** ** The tree of a tidy state *)

Lemma tidy_reachable (s : state) : tidy s → reachable s.
Proof.
  induction 1 as [|m s s' _ IH _ Hret]; [apply reachable_initial|].
  by eapply reachable_step.
Qed.

Lemma same_links_lookup (h h1 : gmap addr Folder.t) (p : addr) (f1 : Folder.t) :
  same_links h h1 → h1 !! p = Some f1 →
  ∃ f, h !! p = Some f ∧ Folder.folders_ f = Folder.folders_ f1 ∧
       Folder.parentFolder_ f = Folder.parentFolder_ f1.
Proof.
  intros Hsame Hp. specialize (Hsame p). rewrite Hp in Hsame.
  destruct (h !! p) as [f|]; [|done]. injection Hsame as Hf Hparent. eauto.
Qed.

Lemma same_links_sym (h h1 : gmap addr Folder.t) : same_links h h1 → same_links h1 h.
Proof. intros Hsame p. by rewrite Hsame. Qed.

(** The tree conditions read nothing but the links. *)
Lemma tree_same_links (h h1 : gmap addr Folder.t) (root : addr) :
  same_links h h1 → tree h root → tree h1 root.
Proof.
  intros Hsame (Hup & Hlive & Hdist & Hheld & Hroot).
  pose proof (same_links_sym _ _ Hsame) as Hsame'.
  split; [|split; [|split; [|split]]].
  - intros p f1 Hp.
    destruct (same_links_lookup _ _ _ _ Hsame Hp) as (f & Hf & <- & <-). by eapply Hup.
  - intros p f1 name c Hle Hp Hname Hc.
    destruct (same_links_lookup _ _ _ _ Hsame Hp) as (f & Hf & Hfs & _).
    rewrite <- Hfs in Hc.
    destruct (Hlive p f name c Hle Hf Hname Hc) as (g & Hg & Hparent).
    destruct (same_links_lookup _ _ _ _ Hsame' Hg) as (g1 & Hg1 & _ & Hp1).
    exists g1. split; [done | congruence].
  - intros p f1 n1 n2 c Hp.
    destruct (same_links_lookup _ _ _ _ Hsame Hp) as (f & Hf & <- & _).
    by eapply Hdist.
  - intros q g1 pq Hq Hparent.
    destruct (same_links_lookup _ _ _ _ Hsame Hq) as (g & Hg & _ & Hpg).
    rewrite <- Hpg in Hparent.
    destruct (Hheld q g pq Hg Hparent) as (f & name & Hf & Hname & Hc).
    destruct (same_links_lookup _ _ _ _ Hsame' Hf) as (f1 & Hf1 & Hfs & _).
    exists f1, name. split; [done|]. split; [done|]. by rewrite Hfs.
  - intros q g1 Hq Hparent.
    destruct (same_links_lookup _ _ _ _ Hsame Hq) as (g & Hg & _ & Hpg).
    rewrite <- Hpg in Hparent. by eapply Hroot.
Qed.

Lemma same_links_files (h : gmap addr Folder.t) (p : addr) (f : Folder.t)
    (n : Z) (fs : gmap string File.t) :
  h !! p = Some f → same_links h (<[p := with_files f n fs]> h).
Proof.
  intros Hp q. destruct (decide (p = q)) as [<-|Hne].
  - by rewrite lookup_insert_eq, Hp.
  - by rewrite lookup_insert_ne.
Qed.

Lemma same_links_live (h h1 : gmap addr Folder.t) (p : addr) :
  same_links h h1 → is_Some (h !! p) → is_Some (h1 !! p).
Proof.
  intros Hsame [f Hf]. specialize (Hsame p). rewrite Hf in Hsame.
  destruct (h1 !! p); [eauto | done].
Qed.

Lemma tree_created (h : gmap addr Folder.t) (root cp nx : addr) (cur : Folder.t)
    (name path : string) (n : Z) :
  tree h root → bounded h nx →
  h !! cp = Some cur → name ≠ up → Folder.folders_ cur !! name = None →
  tree (<[cp := with_folders cur n (<[name := nx]> (Folder.folders_ cur))]>
          (<[nx := Folder_new path (Some cp)]> h)) root.
Proof.
  intros (Hup & Hlive & Hdist & Hheld & Hroot) Hb Hcur Hname Hfree.
  assert (h !! nx = None) as Hfresh.
  { destruct (h !! nx) eqn:Hn; [|done]. apply Hb in Hn. lia. }
  assert (cp ≠ nx) as Hne by congruence.
  set (cur' := with_folders cur n (<[name := nx]> (Folder.folders_ cur))).
  set (new := Folder_new path (Some cp)).
  set (h1 := <[cp := cur']> (<[nx := new]> h)).
  assert (∀ (q : addr) g, h1 !! q = Some g →
            (q = cp ∧ g = cur') ∨ (q = nx ∧ g = new) ∨
            (q ≠ cp ∧ q ≠ nx ∧ h !! q = Some g)) as Hinv.
  { intros q g. unfold h1.
    intros [[<- <-] | [? [[<- <-] | [? Hq]]%lookup_insert_Some]]%lookup_insert_Some;
      auto. }
  assert (∀ (c : addr) g0, h !! c = Some g0 →
            ∃ g, h1 !! c = Some g ∧ Folder.parentFolder_ g = Folder.parentFolder_ g0)
    as Hkeep_parent.
  { intros c g0 Hc. unfold h1. destruct (decide (c = cp)) as [->|Hc'].
    - rewrite lookup_insert_eq. exists cur'. split; [done|].
      by assert (g0 = cur) as -> by congruence.
    - rewrite lookup_insert_ne, lookup_insert_ne by congruence. eauto. }
  assert (∀ (pq : addr) f nm (q : addr),
            h !! pq = Some f → Folder.folders_ f !! nm = Some q →
            ∃ f', h1 !! pq = Some f' ∧ Folder.folders_ f' !! nm = Some q)
    as Hkeep_entry.
  { intros pq f nm q Hpq Hnm. unfold h1. destruct (decide (pq = cp)) as [->|Hpq'].
    - rewrite lookup_insert_eq. exists cur'. split; [done|].
      assert (f = cur) as -> by congruence.
      unfold cur'. cbn [with_folders Folder.folders_].
      rewrite lookup_insert_ne; [done | congruence].
    - rewrite lookup_insert_ne, lookup_insert_ne by congruence. eauto. }
  split; [|split; [|split; [|split]]].
  - intros p f [[-> ->] | [[-> ->] | (_ & _ & Hp)]]%Hinv.
    + unfold cur'. cbn [with_folders Folder.folders_ Folder.parentFolder_].
      rewrite lookup_insert_ne by done. by eapply Hup.
    + unfold new. cbn [Folder_new Folder.folders_ Folder.parentFolder_].
      apply lookup_singleton_eq.
    + by eapply Hup.
  - intros p f nm c _ [[-> ->] | [[-> ->] | (_ & _ & Hp)]]%Hinv Hnm Hc.
    + unfold cur' in Hc. cbn [with_folders Folder.folders_] in Hc.
      apply lookup_insert_Some in Hc as [[<- <-] | [_ Hc]].
      * exists new. split; [|done]. unfold h1.
        rewrite lookup_insert_ne, lookup_insert_eq by done. done.
      * destruct (Hlive cp cur nm c ltac:(lia) Hcur Hnm Hc) as (g0 & Hg0 & Hparent).
        destruct (Hkeep_parent c g0 Hg0) as (g & Hg & Hpg). exists g.
        split; [done | congruence].
    + unfold new in Hc. cbn [Folder_new Folder.folders_] in Hc.
      by apply lookup_singleton_Some in Hc as [<- _].
    + destruct (Hlive p f nm c ltac:(lia) Hp Hnm Hc) as (g0 & Hg0 & Hparent).
      destruct (Hkeep_parent c g0 Hg0) as (g & Hg & Hpg). exists g.
      split; [done | congruence].
  - intros p f n1 n2 c [[-> ->] | [[-> ->] | (_ & _ & Hp)]]%Hinv Hn1 Hn2 Hc1 Hc2.
    + unfold cur' in Hc1, Hc2. cbn [with_folders Folder.folders_] in Hc1, Hc2.
      apply lookup_insert_Some in Hc1 as [[<- <-] | [Hne1 Hc1]];
        apply lookup_insert_Some in Hc2 as [[<- Heq] | [Hne2 Hc2]]; try done.
      * destruct (Hlive cp cur n2 nx ltac:(lia) Hcur Hn2 Hc2) as (g & Hg & _).
        congruence.
      * subst c. destruct (Hlive cp cur n1 nx ltac:(lia) Hcur Hn1 Hc1) as (g & Hg & _).
        congruence.
      * by eapply (Hdist cp cur n1 n2 c).
    + unfold new in Hc1. cbn [Folder_new Folder.folders_] in Hc1.
      by apply lookup_singleton_Some in Hc1 as [<- _].
    + by eapply (Hdist p f n1 n2 c).
  - intros q g pq [[-> ->] | [[-> ->] | (_ & _ & Hq)]]%Hinv Hparent.
    + unfold cur' in Hparent. cbn [with_folders Folder.parentFolder_] in Hparent.
      destruct (Hheld cp cur pq Hcur Hparent) as (f & nm & Hf & Hnm & Hc).
      destruct (Hkeep_entry pq f nm cp Hf Hc) as (f' & Hf' & Hc'). eauto.
    + unfold new in Hparent. cbn [Folder_new Folder.parentFolder_] in Hparent.
      injection Hparent as <-. exists cur', name. unfold h1.
      rewrite lookup_insert_eq. split; [done|]. split; [done|].
      unfold cur'. cbn [with_folders Folder.folders_]. apply lookup_insert_eq.
    + destruct (Hheld q g pq Hq Hparent) as (f & nm & Hf & Hnm & Hc).
      destruct (Hkeep_entry pq f nm q Hf Hc) as (f' & Hf' & Hc'). eauto.
  - intros q g [[-> ->] | [[-> ->] | (_ & _ & Hq)]]%Hinv Hparent.
    + by eapply Hroot.
    + done.
    + by eapply Hroot.
Qed.

Lemma tree_deleted (h h' : gmap addr Folder.t) (root cp child : addr)
    (cur : Folder.t) (name : string) (n : Z) :
  tree h root →
  h !! cp = Some cur → name ≠ up → Folder.folders_ cur !! name = Some child →
  h' ⊆ h → freed_from h h' child → closed_down h h' →
  h' !! child = None → h' !! cp = Some cur →
  tree (<[cp := with_folders cur n (delete name (Folder.folders_ cur))]> h') root.
Proof.
  intros (Hup & Hlive & Hdist & Hheld & Hroot) Hcur Hname Hchild Hsub Hfreed Hclosed
    Hgone Hcur'.
  set (cur' := with_folders cur n (delete name (Folder.folders_ cur))).
  set (h1 := <[cp := cur']> h').
  assert (∀ (q : addr) g, h1 !! q = Some g →
            (q = cp ∧ g = cur') ∨ (q ≠ cp ∧ h' !! q = Some g ∧ h !! q = Some g))
    as Hinv.
  { intros q g. unfold h1. intros [[<- <-] | [? Hq]]%lookup_insert_Some; [auto|].
    right. split; [done|]. split; [done|]. by eapply lookup_weaken. }
  assert (∀ (c : addr) g0, h' !! c = Some g0 →
            ∃ g, h1 !! c = Some g ∧ Folder.parentFolder_ g = Folder.parentFolder_ g0)
    as Hkeep_parent.
  { intros c g0 Hc. unfold h1. destruct (decide (c = cp)) as [->|Hc'].
    - rewrite lookup_insert_eq. exists cur'. split; [done|].
      by assert (g0 = cur) as -> by congruence.
    - rewrite lookup_insert_ne by congruence. eauto. }
  (* a folder that is left holds no folder that was freed *)
  assert (∀ (p : addr) f nm (c : addr),
            h' !! p = Some f → nm ≠ up → Folder.folders_ f !! nm = Some c →
            (p = cp → nm ≠ name) →
            ∃ g0, h' !! c = Some g0 ∧ Folder.parentFolder_ g0 = Some p) as Hstay.
  { intros p f nm c Hp Hnm Hc Hother.
    assert (h !! p = Some f) as Hph by (by eapply lookup_weaken).
    destruct (Hlive p f nm c ltac:(lia) Hph Hnm Hc) as (g0 & Hg0 & Hparent).
    exists g0. split; [|done].
    destruct (h' !! c) as [g1|] eqn:Hc1.
    { eapply lookup_weaken in Hc1; [|exact Hsub]. congruence. }
    destruct (Hfreed c g0 Hg0 Hc1) as [_ [-> | (pq & Hpq & Hpq')]]; [|congruence].
    destruct (Hlive cp cur name child ltac:(lia) Hcur Hname Hchild)
      as (gc & Hgc & Hcparent).
    assert (p = cp) as -> by congruence.
    assert (f = cur) as -> by congruence.
    exfalso. apply (Hother eq_refl). by eapply (Hdist cp cur nm name child). }
  split; [|split; [|split; [|split]]].
  - intros p f [[-> ->] | (_ & _ & Hp)]%Hinv; [|by eapply Hup].
    unfold cur'. cbn [with_folders Folder.folders_ Folder.parentFolder_].
    rewrite lookup_delete_ne by done. by eapply Hup.
  - intros p f nm c _ [[-> ->] | (Hne & Hp & _)]%Hinv Hnm Hc.
    + unfold cur' in Hc. cbn [with_folders Folder.folders_] in Hc.
      apply lookup_delete_Some in Hc as [Hother Hc].
      destruct (Hstay cp cur nm c Hcur' Hnm Hc ltac:(congruence)) as (g0 & Hg0 & Hparent).
      destruct (Hkeep_parent c g0 Hg0) as (g & Hg & Hpg). exists g.
      split; [done | congruence].
    + destruct (Hstay p f nm c Hp Hnm Hc ltac:(done)) as (g0 & Hg0 & Hparent).
      destruct (Hkeep_parent c g0 Hg0) as (g & Hg & Hpg). exists g.
      split; [done | congruence].
  - intros p f n1 n2 c [[-> ->] | (_ & _ & Hp)]%Hinv Hn1 Hn2 Hc1 Hc2;
      [|by eapply (Hdist p f n1 n2 c)].
    unfold cur' in Hc1, Hc2. cbn [with_folders Folder.folders_] in Hc1, Hc2.
    apply lookup_delete_Some in Hc1 as [_ Hc1].
    apply lookup_delete_Some in Hc2 as [_ Hc2].
    by eapply (Hdist cp cur n1 n2 c).
  - assert (∀ (q : addr) g pq, h' !! q = Some g → h !! q = Some g →
              Folder.parentFolder_ g = Some pq →
              ∃ f nm, h1 !! pq = Some f ∧ nm ≠ up ∧ Folder.folders_ f !! nm = Some q)
      as Hheld'.
    { intros q g pq Hq' Hq Hparent.
      destruct (Hheld q g pq Hq Hparent) as (f & nm & Hf & Hnm & Hc).
      assert (h' !! pq = Some f) as Hf'.
      { destruct (h' !! pq) as [f0|] eqn:Hpq'.
        - eapply lookup_weaken in Hpq'; [|exact Hsub]. congruence.
        - pose proof (Hclosed pq f Hf Hpq' nm q Hc Hnm). congruence. }
      unfold h1. destruct (decide (pq = cp)) as [->|Hpq].
      - rewrite lookup_insert_eq. exists cur', nm. split; [done|]. split; [done|].
        assert (f = cur) as -> by congruence.
        unfold cur'. cbn [with_folders Folder.folders_].
        rewrite lookup_delete_ne; [done|]. intros <-. congruence.
      - rewrite lookup_insert_ne by done. eauto. }
    intros q g pq [[-> ->] | (_ & Hq' & Hq)]%Hinv Hparent.
    + unfold cur' in Hparent. cbn [with_folders Folder.parentFolder_] in Hparent.
      by eapply Hheld'.
    + by eapply Hheld'.
  - intros q g [[-> ->] | (_ & _ & Hq)]%Hinv Hparent; by eapply Hroot.
Qed.

(** On a tree the loop of [changeDirectory] never reads through a
    dangling pointer, and ends on a folder of the heap. *)
Lemma walk_live (names : list string) :
  ∀ (p : addr) s,
    tree (heap s) (rootFolder s) → is_Some (heap s !! p) →
    walk names p s ≠ Undef ∧
    ∀ q s', walk names p s = Val q s' → is_Some (heap s !! q).
Proof.
  induction names as [|name names IH]; intros p s Htree [f Hp].
  - split; [done|]. cbn [walk]. unfold ret. intros q s' [= <- _]. eauto.
  - cbn [walk]. unfold bind, deref. rewrite Hp.
    destruct (Folder.folders_ f !! name) as [c|] eqn:Hc; [|done].
    apply IH; [done|].
    destruct Htree as (Hup & Hlive & _ & Hheld & _).
    destruct (decide (name = up)) as [->|Hname].
    + rewrite (Hup p f Hp) in Hc.
      destruct (Hheld p f c Hp Hc) as (g & nm & Hg & _). eauto.
    + destruct (Hlive p f name c ltac:(lia) Hp Hname Hc) as (g & Hg & _). eauto.
Qed.

Lemma tidy_invariant_initial : tidy_invariant initial.
Proof.
  split; [apply invariant_initial|].
  split; [|split; [done|split; cbn; by rewrite lookup_singleton_eq]].
  unfold initial. cbn [heap rootFolder].
  split; [|split; [|split; [|split]]].
  - by intros p f [<- <-]%lookup_singleton_Some.
  - by intros p f name c _ [<- <-]%lookup_singleton_Some.
  - by intros p f n1 n2 c [<- <-]%lookup_singleton_Some.
  - by intros q g pq [<- <-]%lookup_singleton_Some.
  - by intros q g [<- <-]%lookup_singleton_Some.
Qed.

(** What the destructor does to the tree of a tidy state when it is run
    on a folder held by the current one. *)
Lemma destroy_child (s : state) (cur : Folder.t) (name : string) (child : addr) :
  tidy_invariant s → name ≠ up →
  heap s !! currentDirPointer_ s = Some cur →
  Folder.folders_ cur !! name = Some child →
  ∃ h, destroy (next_addr s) child (heap s) = Freed h ∧
       h ⊆ heap s ∧ freed_from (heap s) h child ∧
       h !! currentDirPointer_ s = Some cur ∧ is_Some (h !! rootFolder s).
Proof.
  intros ([[Hb Ho] _] & Htree & Hroot0 & [root Hroot] & _) Hname Hcur Hchild.
  destruct Htree as (_ & Hlive & Hdist & _).
  destruct (Hlive _ _ _ _ ltac:(lia) Hcur Hname Hchild) as (g & Hg & _).
  destruct (destroy_safe (next_addr s) child (heap s) (next_addr s) g)
    as (h & Hdestroy & Hsub & Hfreed); try done; [lia| |].
  { intros p f nm c _. apply Hlive. lia. }
  pose proof (Ho _ _ _ _ Hcur Hchild Hname) as Hlt.
  exists h. split; [done|]. split; [done|]. split; [done|]. split.
  - destruct (h !! currentDirPointer_ s) as [f|] eqn:Hcur'.
    + eapply lookup_weaken in Hcur'; [|exact Hsub]. congruence.
    + destruct (Hfreed _ _ Hcur Hcur') as [Hle _]. lia.
  - destruct (h !! rootFolder s) as [f|] eqn:Hroot'; [eauto|].
    destruct (Hfreed _ _ Hroot Hroot') as [Hle _]. lia.
Qed.

Lemma tidy_invariant_Done (m : mutation) (s s' : state) :
  tidy_invariant s → avoids_up m → perform m s = Done tt s' → tidy_invariant s'.
Proof.
  intros Htidy Hm Hrun.
  pose proof Htidy as (Hinv & Htree & Hroot0 & Hroot & Hlive).
  split; [by eapply invariant_Done|].
  destruct m as [d r|n|n c|n c|n|n]; cbn [perform avoids_up] in *.
  - destruct (decide (currentDirPath_ s = d)) as [Hpath|Hpath].
    + unfold changeDirectory in Hrun. rewrite Hpath, String.eqb_refl in Hrun.
      by injection Hrun as <-.
    + apply changeDirectory_Done_walk in Hrun as (names & p & _ & Hwalk & ->);
        [|done].
      cbn [heap rootFolder currentDirPointer_].
      split; [done|]. split; [done|]. split; [done|].
      eapply (walk_live names); [exact Htree| |exact Hwalk]. by destruct r.
  - apply createFolder_Done in Hrun
      as (cur & cur' & _ & Hcur & Hfree & Hcur' & _ & ->).
    destruct Hinv as [[Hb _] _].
    assert (currentDirPointer_ s < next_addr s) as Hlt by (by eapply Hb).
    rewrite lookup_insert_ne in Hcur' by lia.
    assert (cur' = cur) as -> by congruence.
    cbn [heap rootFolder currentDirPointer_].
    split; [by eapply tree_created|]. split; [done|]. split.
    + destruct Hroot as [root Hroot].
      destruct (decide (rootFolder s = currentDirPointer_ s)) as [->|Hne].
      * rewrite lookup_insert_eq. eauto.
      * rewrite lookup_insert_ne, lookup_insert_ne; [eauto| |done].
        apply Hb in Hroot. lia.
    + rewrite lookup_insert_eq. eauto.
  - apply (files_Done (CreateFile n c)) in Hrun as (cur & k & fs & Hcur & _ & ->);
      [|done].
    pose proof (same_links_files _ _ _ k fs Hcur) as Hsame.
    cbn [heap rootFolder currentDirPointer_].
    split; [by eapply tree_same_links|]. split; [done|].
    split; by eapply same_links_live.
  - apply (files_Done (UpdateFile n c)) in Hrun as (cur & k & fs & Hcur & _ & ->);
      [|done].
    pose proof (same_links_files _ _ _ k fs Hcur) as Hsame.
    cbn [heap rootFolder currentDirPointer_].
    split; [by eapply tree_same_links|]. split; [done|].
    split; by eapply same_links_live.
  - apply deleteFolder_Done in Hrun
      as (cur & child & h & cur' & Hcur & Hchild & Hdestroy & Hcur' & ->).
    destruct (destroy_child s cur n child Htidy Hm Hcur Hchild)
      as (h0 & Hdestroy0 & Hsub & Hfreed & Hcur0 & Hroot').
    assert (h0 = h) as -> by congruence.
    assert (cur' = cur) as -> by congruence.
    cbn [heap rootFolder currentDirPointer_].
    split; [|split; [done|split]].
    + eapply tree_deleted; try done.
      * by eapply destroy_closed_down.
      * by eapply destroy_frees_self.
    + destruct (decide (rootFolder s = currentDirPointer_ s)) as [->|Hne].
      * rewrite lookup_insert_eq. eauto.
      * by rewrite lookup_insert_ne.
    + rewrite lookup_insert_eq. eauto.
  - apply (files_Done (DeleteFile n)) in Hrun as (cur & k & fs & Hcur & _ & ->);
      [|done].
    pose proof (same_links_files _ _ _ k fs Hcur) as Hsame.
    cbn [heap rootFolder currentDirPointer_].
    split; [by eapply tree_same_links|]. split; [done|].
    split; by eapply same_links_live.
Qed.

Lemma tidy_tidy_invariant (s : state) : tidy s → tidy_invariant s.
Proof.
  induction 1 as [|m s s' _ IH Hm Hret]; [apply tidy_invariant_initial|].
  apply returns_Done_or_failure in Hret as [Hdone | Hfail].
  - by eapply tidy_invariant_Done.
  - by apply failure_keeps_state in Hfail as ->.
Qed.

(** In a tidy state every [".."] entry is the parent pointer. *)
Lemma tidy_up_entries_are_parents (s : state) :
  tidy s → up_entries_are_parents (heap s).
Proof. by intros (_ & (Hup & _) & _)%tidy_tidy_invariant. Qed.

Lemma tidy_with_aaa : tidy with_aaa.
Proof.
  apply (tidy_step (CreateFolder "aaa") initial); [apply tidy_initial|done|].
  vm_compute. reflexivity.
Qed.

Lemma tidy_in_aaa : tidy in_aaa.
Proof.
  apply (tidy_step (ChangeDirectory "aaa" true) with_aaa); [apply tidy_with_aaa|done|].
  vm_compute. reflexivity.
Qed.

(** ** No dangling pointers *)

(** X21: with one [FileManager] on the storage, as long as [".."] is
    never given to [createFolder] or [deleteFolder], no pointer of the
    program dangles: the root pointer of the storage and the
    current-folder pointer of the manager are folders of the heap, and so
    is every entry of every folder map, the [".."] entries included. *)
Theorem tidy_no_dangling (s : state) :
  tidy s →
  is_Some (heap s !! rootFolder s) ∧
  is_Some (heap s !! currentDirPointer_ s) ∧
  ∀ (p : addr) f name (c : addr),
    heap s !! p = Some f → Folder.folders_ f !! name = Some c →
    is_Some (heap s !! c).
Proof.
  intros (_ & (Hup & Hlive & _ & Hheld & _) & _ & Hroot & Hcur)%tidy_tidy_invariant.
  split; [done|]. split; [done|].
  intros p f name c Hp Hc. destruct (decide (name = up)) as [->|Hname].
  - rewrite (Hup p f Hp) in Hc.
    destruct (Hheld p f c Hp Hc) as (g & nm & Hg & _). eauto.
  - destruct (Hlive p f name c ltac:(lia) Hp Hname Hc) as (g & Hg & _). eauto.
Qed.

Lemma tidy_no_dangling_witness :
  is_Some (heap in_aaa !! rootFolder in_aaa) ∧
  is_Some (heap in_aaa !! currentDirPointer_ in_aaa) ∧
  ∀ (p : addr) f name (c : addr),
    heap in_aaa !! p = Some f → Folder.folders_ f !! name = Some c →
    is_Some (heap in_aaa !! c).
Proof. exact (tidy_no_dangling in_aaa tidy_in_aaa). Defined.

(** X22: as long as [".."] is never given to [createFolder] or
    [deleteFolder], the root is the only folder without a [".."] entry;
    the [".."] entry of any other folder points to a folder of the heap
    that holds it under a name other than [".."]. *)
Theorem tidy_up_entry (s : state) (p : addr) (f : Folder.t) :
  tidy s → heap s !! p = Some f →
  match Folder.folders_ f !! up with
  | None => p = rootFolder s
  | Some q =>
      p ≠ rootFolder s ∧
      ∃ g name, heap s !! q = Some g ∧ name ≠ up ∧ Folder.folders_ g !! name = Some p
  end.
Proof.
  intros Htidy Hp.
  pose proof (tidy_tidy_invariant s Htidy) as (_ & (Hup & _ & _ & Hheld & Hroot) & _).
  rewrite (Hup p f Hp).
  destruct (Folder.parentFolder_ f) as [q|] eqn:Hparent; [|by eapply Hroot].
  split; [|by eapply Hheld].
  intros ->.
  destruct (reachable_root s (tidy_reachable s Htidy) f Hp) as [_ Hnone]. congruence.
Qed.

Lemma tidy_up_entry_witness :
  match Folder.folders_ (Folder_new "//aaa" (Some 0)) !! up with
  | None => 1 = rootFolder in_aaa
  | Some q =>
      1 ≠ rootFolder in_aaa ∧
      ∃ g name, heap in_aaa !! q = Some g ∧ name ≠ up ∧ Folder.folders_ g !! name = Some 1
  end.
Proof.
  apply (tidy_up_entry in_aaa 1 (Folder_new "//aaa" (Some 0)) tidy_in_aaa).
  vm_compute. reflexivity.
Defined.

(** ** Tearing the storage down *)

(** When the destructor has run on the root of a tree, nothing is left. *)
Lemma teardown_empty (h h' : gmap addr Folder.t) (root : addr) :
  tree h root → ordered h → h' ⊆ h → closed_down h h' → h' !! root = None →
  h' = ∅.
Proof.
  intros (_ & _ & _ & Hheld & Hroot) Ho Hsub Hclosed Hgone.
  apply map_empty. intros q. induction (lt_wf q) as [q _ IH].
  destruct (h' !! q) as [g|] eqn:Hq; [|done]. exfalso.
  assert (h !! q = Some g) as Hq0 by (by eapply lookup_weaken).
  destruct (Folder.parentFolder_ g) as [pq|] eqn:Hparent.
  - destruct (Hheld q g pq Hq0 Hparent) as (f & name & Hf & Hname & Hc).
    pose proof (Ho _ _ _ _ Hf Hc Hname) as Hlt.
    pose proof (Hclosed pq f Hf (IH pq Hlt) name q Hc Hname) as Hfreed.
    unfold addr in *. congruence.
  - assert (q = root) as -> by (by eapply Hroot). unfold addr in *. congruence.
Qed.

(** X23: as long as [".."] has never been given to [createFolder] or
    [deleteFolder], [~FileStorage] frees every folder, each one once: the
    destructor comes back without a double free, and the heap it leaves is
    empty. *)
Theorem FileStorage_delete_frees_everything (s : state) :
  tidy s → ∃ s', FileStorage_delete s = Done tt s' ∧ heap s' = ∅.
Proof.
  intros ([[Hb Ho] _] & Htree & _ & [root Hroot] & _)%tidy_tidy_invariant.
  pose proof Htree as (_ & Hlive & Hdist & _).
  destruct (destroy_safe (next_addr s) (rootFolder s) (heap s) (next_addr s) root)
    as (h & Hdestroy & Hsub & Hfreed); try done; [lia| |].
  { intros p f nm c _. apply Hlive. lia. }
  unfold FileStorage_delete, release, set_heap. rewrite Hdestroy.
  eexists. split; [reflexivity|]. cbn [heap].
  eapply teardown_empty; try done.
  - by eapply destroy_closed_down.
  - by eapply destroy_frees_self.
Qed.

Lemma FileStorage_delete_frees_everything_witness :
  ∃ s', FileStorage_delete in_aaa = Done tt s' ∧ heap s' = ∅.
Proof. exact (FileStorage_delete_frees_everything in_aaa tidy_in_aaa). Defined.

(** ** Calls on a tidy state come back *)

(** X24: with one [FileManager] on the storage, as long as [".."] is
    never given to [createFolder] or [deleteFolder], the counters of the
    current folder are below [INT_MAX] and the name given to [createFile]
    has fewer than [2^31] characters, every call of the six operations
    comes back to its caller, with or without an exception: no call has
    undefined behaviour (no read through a dangling pointer, no double
    free, no overflow of a counter or of an index) and none ends the
    process. *)
Theorem tidy_call_returns (m : mutation) (s : state) :
  tidy s → avoids_up m → short_name m → room s →
  ∃ s', returns (perform m s) = Some s'.
Proof.
  intros Htidy Hm Hshort Hroom.
  pose proof (tidy_tidy_invariant s Htidy) as Hti.
  pose proof Hti as ([[Hb Ho] Hcounts] & Htree & _ & Hroot & [cur Hcur]).
  destruct (Hroom cur Hcur) as [Hfolders Hfiles].
  destruct (Hcounts _ _ Hcur) as [Hfc Hdc].
  assert (currentDirPointer_ s < next_addr s) as Hlt by (by eapply Hb).
  destruct m as [d r|n|n c|n c|n|n]; cbn [perform avoids_up short_name] in *.
  - unfold changeDirectory, try_catch_runtime_error.
    destruct (String.eqb _ _); [eauto|].
    unfold bind at 1, call.
    destruct (splitFilePath d) as [names|e] eqn:Hsplit.
    + unfold ret, bind, set_current.
      destruct (walk_live names (if r then currentDirPointer_ s else rootFolder s) s
                  Htree) as [Hdef _]; [destruct r; eauto|].
      pose proof (walk_NoFuel names (if r then currentDirPointer_ s else rootFolder s) s).
      destruct (walk names _ s) as [p s0|e s0| |] eqn:Hwalk; try done; [eauto|].
      apply walk_Exc in Hwalk as [_ ->]. cbn. eauto.
    + apply splitFilePath_Throw in Hsplit as [-> | ->]; cbn; eauto.
  - unfold createFolder, try_catch_invalid_argument, throwIfNameInvalid, addFolder, count.
    unfold_monad. destruct (contains_sep n); [cbn; eauto|]. rewrite Hcur.
    destruct (Folder.folders_ cur !! n); cbn; [eauto|].
    rewrite lookup_insert_ne, Hcur by lia.
    destruct (Z.eqb_spec (Folder.foldersCount_ (Folder.metadata_ cur)) INT_MAX); [lia|].
    cbn. rewrite lookup_insert_ne, Hcur by lia. cbn. eauto.
  - unfold createFile, try_catch_invalid_argument, throwIfNameInvalid, addFile, count.
    unfold_monad. destruct (contains_sep n); [cbn; eauto|]. rewrite Hcur.
    destruct (Folder.files_ cur !! n); cbn; [eauto|].
    rewrite getFileExtension_dots by done. rewrite Hcur.
    destruct (Z.eqb_spec (Folder.filesCount_ (Folder.metadata_ cur)) INT_MAX); [lia|].
    rewrite Hcur. eauto.
  - unfold updateFile, try_catch_invalid_argument, throwIfNameInvalid.
    unfold_monad. destruct (contains_sep n); [cbn; eauto|]. rewrite Hcur.
    destruct (Folder.files_ cur !! n); cbn; [|eauto]. rewrite Hcur. eauto.
  - destruct (contains_sep n) eqn:Hsep.
    { unfold deleteFolder, try_catch_invalid_argument, throwIfNameInvalid.
      unfold_monad. rewrite Hsep. cbn. eauto. }
    destruct (Folder.folders_ cur !! n) as [child|] eqn:Hchild.
    + destruct (destroy_child s cur n child Hti Hm Hcur Hchild)
        as (h & Hdestroy & _ & _ & Hcur' & _).
      erewrite deleteFolder_run; [cbn; eauto|done..|].
      unfold INT_MIN. destruct (Folder.parentFolder_ cur); lia.
    + unfold deleteFolder, try_catch_invalid_argument, throwIfNameInvalid, count.
      unfold_monad. rewrite Hsep, Hcur. cbn. rewrite Hchild. cbn. eauto.
  - destruct (contains_sep n) eqn:Hsep.
    { unfold deleteFile, try_catch_invalid_argument, throwIfNameInvalid.
      unfold_monad. rewrite Hsep. cbn. eauto. }
    destruct (Folder.files_ cur !! n) as [old|] eqn:Hold.
    + erewrite deleteFile_run; [cbn; eauto|done..|].
      unfold INT_MIN. lia.
    + unfold deleteFile, try_catch_invalid_argument, throwIfNameInvalid, count.
      unfold_monad. rewrite Hsep, Hcur. cbn. rewrite Hold. cbn. eauto.
Qed.

Lemma tidy_call_returns_witness :
  ∃ s', returns (perform (DeleteFolder "aaa") with_aaa) = Some s'.
Proof.
  apply (tidy_call_returns (DeleteFolder "aaa") with_aaa tidy_with_aaa).
  - discriminate.
  - exact I.
  - intros cur Hcur. vm_compute in Hcur. injection Hcur as <-. vm_compute. done.
Defined.

(** ** The driver *)

(** X25: [main] runs to its end: no call has undefined behaviour, none
    lets an exception out, none writes a diagnostic to [std::cerr], and
    when the storage has been deleted no folder is left in the heap. *)
Theorem main_runs_clean : ∃ s, main = Done [] s ∧ heap s = ∅.
Proof. eexists. split; vm_compute; reflexivity. Qed.

(** ** Failures, in general *)

(** X26: whatever the state, each of the six operations that take a
    bare name answers a name with a separator in it by a diagnostic on
    [std::cerr], made of its own prefix and the message of
    [throwIfNameInvalid], and leaves the state as it was; the current
    folder is not even read. *)
Theorem name_with_separator_is_reported (name content : string) (s : state) :
  contains_sep name = true →
  ∃ what,
    invalid_name_error = invalid_argument what ∧
    createFolder name s = Reported ("Error while creating folder: " +:+ what) s ∧
    createFile name content s = Reported ("Error while creating file: " +:+ what) s ∧
    updateFile name content s = Reported ("Error while updating file: " +:+ what) s ∧
    deleteFolder name s = Reported ("Error while deleting folder: " +:+ what) s ∧
    deleteFile name s = Reported ("Error while deleting file: " +:+ what) s ∧
    printFileContents name s = Reported ("Error while printing file: " +:+ what) s.
Proof. apply invalid_name_reported. Qed.

Lemma name_with_separator_is_reported_witness :
  ∃ what,
    invalid_name_error = invalid_argument what ∧
    createFolder "a/b" in_aaa = Reported ("Error while creating folder: " +:+ what) in_aaa ∧
    createFile "a/b" "" in_aaa = Reported ("Error while creating file: " +:+ what) in_aaa ∧
    updateFile "a/b" "" in_aaa = Reported ("Error while updating file: " +:+ what) in_aaa ∧
    deleteFolder "a/b" in_aaa = Reported ("Error while deleting folder: " +:+ what) in_aaa ∧
    deleteFile "a/b" in_aaa = Reported ("Error while deleting file: " +:+ what) in_aaa ∧
    printFileContents "a/b" in_aaa = Reported ("Error while printing file: " +:+ what) in_aaa.
Proof. apply (name_with_separator_is_reported "a/b" "" in_aaa). reflexivity. Defined.

(** X27: with a name that passes [throwIfNameInvalid] and a current
    folder in the heap, the [std::runtime_error] of a failed existence
    test is caught by none of the operations: creating under a name that
    is taken, and updating or deleting under a name that is missing, let
    it out to the caller with the state as it was; [printFileContents],
    being [noexcept], ends the process. *)
Theorem taken_or_missing_name_escapes (name content : string) (s : state)
    (cur : Folder.t) :
  contains_sep name = false →
  heap s !! currentDirPointer_ s = Some cur →
  (is_Some (Folder.folders_ cur !! name) →
     createFolder name s = Escaped (runtime_error "Folder already exists") s) ∧
  (is_Some (Folder.files_ cur !! name) →
     createFile name content s = Escaped (runtime_error "File already exists") s) ∧
  (Folder.files_ cur !! name = None →
     updateFile name content s = Escaped (runtime_error "File doesn't exists") s ∧
     deleteFile name s = Escaped (runtime_error "File doesn't exists") s ∧
     printFileContents name s = Terminated) ∧
  (Folder.folders_ cur !! name = None →
     deleteFolder name s = Escaped (runtime_error "Folder doesn't exists") s).
Proof. apply existence_failure_escapes. Qed.

Lemma taken_or_missing_name_escapes_witness :
  createFolder ".." in_aaa = Escaped (runtime_error "Folder already exists") in_aaa ∧
  printFileContents ".." in_aaa = Terminated.
Proof.
  destruct (taken_or_missing_name_escapes ".." "" in_aaa
              (Folder_new "//aaa" (Some 0)) eq_refl)
    as (Htaken & _ & Hmissing & _); [vm_compute; reflexivity|].
  split.
  - apply Htaken. vm_compute. eauto.
  - apply Hmissing. vm_compute. reflexivity.
Defined.

(** ** What a call leaves alone *)

(** X28: a successful call from a reachable state writes to no folder
    but the current one: any other folder of the heap afterwards was there
    before, the same in every field, or is the one that [createFolder] has
    just made, with the current folder as its parent. *)
Theorem successful_call_is_local (m : mutation) (s s' : state) (p : addr)
    (f' : Folder.t) :
  reachable s → perform m s = Done tt s' →
  heap s' !! p = Some f' → p ≠ currentDirPointer_ s →
  heap s !! p = Some f' ∨
  (heap s !! p = None ∧ ∃ path, f' = Folder_new path (Some (currentDirPointer_ s))).
Proof.
  intros Hreach Hrun Hp Hne.
  destruct (step_shape m s s' Hreach Hrun p f' Hp)
    as [Hold | [(-> & _) | (_ & Hnone & Hnew)]]; auto. done.
Qed.

Lemma successful_call_is_local_witness :
  heap initial !! 1 = Some (Folder_new "//aaa" (Some 0)) ∨
  (heap initial !! 1 = None ∧
   ∃ path, Folder_new "//aaa" (Some 0)
           = Folder_new path (Some (currentDirPointer_ initial))).
Proof.
  apply (successful_call_is_local (CreateFolder "aaa") initial with_aaa 1
           (Folder_new "//aaa" (Some 0)) reachable_initial).
  - vm_compute. reflexivity.
  - vm_compute. reflexivity.
  - discriminate.
Defined.

(** X29: [createFile], [updateFile] and [deleteFile], whether they
    succeed or fail, leave the folder structure alone: the same folders
    are in the heap, each with the folder map and the parent pointer it
    had, and the manager stays where it was. *)
Theorem file_calls_keep_folders (m : mutation) (s s' : state) :
  match m with
  | CreateFile _ _ | UpdateFile _ _ | DeleteFile _ => True
  | _ => False
  end →
  returns (perform m s) = Some s' →
  same_links (heap s) (heap s') ∧
  rootFolder s' = rootFolder s ∧
  currentDirPointer_ s' = currentDirPointer_ s ∧
  currentDirPath_ s' = currentDirPath_ s.
Proof.
  intros Hm [Hdone | Hfail]%returns_Done_or_failure.
  - apply files_Done in Hdone as (cur & k & fs & Hcur & _ & ->); [|done].
    split; [by apply same_links_files | done].
  - by apply failure_keeps_state in Hfail as ->.
Qed.

Lemma file_calls_keep_folders_witness :
  same_links (heap with_aaa)
    (heap (after (createFile "yoyo" "huhu" with_aaa) with_aaa)) ∧
  rootFolder (after (createFile "yoyo" "huhu" with_aaa) with_aaa)
    = rootFolder with_aaa ∧
  currentDirPointer_ (after (createFile "yoyo" "huhu" with_aaa) with_aaa)
    = currentDirPointer_ with_aaa ∧
  currentDirPath_ (after (createFile "yoyo" "huhu" with_aaa) with_aaa)
    = currentDirPath_ with_aaa.
Proof.
  apply (file_calls_keep_folders (CreateFile "yoyo" "huhu") with_aaa).
  - exact I.
  - vm_compute. reflexivity.
Defined.

(** X30: [changeDirectory], [createFolder] and [deleteFolder], from a
    reachable state, leave the files alone: a folder that is in the heap
    before and after the call holds the same files, with the same
    contents, and the same file count. *)
Theorem folder_calls_keep_files (m : mutation) (s s' : state) (p : addr)
    (f f' : Folder.t) :
  reachable s →
  match m with
  | ChangeDirectory _ _ | CreateFolder _ | DeleteFolder _ => True
  | _ => False
  end →
  returns (perform m s) = Some s' →
  heap s !! p = Some f → heap s' !! p = Some f' →
  Folder.files_ f' = Folder.files_ f ∧
  Folder.filesCount_ (Folder.metadata_ f') = Folder.filesCount_ (Folder.metadata_ f).
Proof.
  intros [[Hb _] _]%reachable_invariant Hm [Hdone | Hfail]%returns_Done_or_failure
    Hp Hp'.
  - destruct m as [d r|n|n c|n c|n|n]; try done; cbn [perform] in Hdone.
    + apply changeDirectory_Done in Hdone as [-> | [q ->]];
        cbn [heap] in Hp'; by assert (f' = f) as -> by congruence.
    + apply createFolder_Done in Hdone
        as (cur & cur' & _ & Hcur & _ & Hcur' & _ & ->).
      assert (currentDirPointer_ s < next_addr s) as Hlt by (by eapply Hb).
      assert (p < next_addr s) as Hlt' by (by eapply Hb).
      rewrite lookup_insert_ne in Hcur' by lia.
      cbn [heap] in Hp'.
      apply lookup_insert_Some in Hp' as [[<- <-] | [_ Hp']].
      * by assert (cur' = f) as -> by congruence.
      * rewrite lookup_insert_ne in Hp' by lia.
        by assert (f' = f) as -> by congruence.
    + apply deleteFolder_Done in Hdone
        as (cur & child & h & cur' & Hcur & _ & Hsub%destroy_subseteq & Hcur' & ->).
      cbn [heap] in Hp'.
      apply lookup_insert_Some in Hp' as [[<- <-] | [_ Hp']].
      * eapply lookup_weaken in Hcur'; [|exact Hsub].
        by assert (cur' = f) as -> by congruence.
      * eapply lookup_weaken in Hp'; [|exact Hsub].
        by assert (f' = f) as -> by congruence.
  - apply failure_keeps_state in Hfail as ->.
    by assert (f' = f) as -> by congruence.
Qed.

Lemma folder_calls_keep_files_witness :
  Folder.files_ (with_folders (Folder_new "/" None) 1 {[ "aaa" := 1 ]})
    = Folder.files_ (Folder_new "/" None) ∧
  Folder.filesCount_
    (Folder.metadata_ (with_folders (Folder_new "/" None) 1 {[ "aaa" := 1 ]}))
    = Folder.filesCount_ (Folder.metadata_ (Folder_new "/" None)).
Proof.
  apply (folder_calls_keep_files (CreateFolder "aaa") initial with_aaa 0 _ _
           reachable_initial).
  - exact I.
  - vm_compute. reflexivity.
  - vm_compute. reflexivity.
  - vm_compute. reflexivity.
Defined.
